(** * TTB label verification: text normaliser, OCR wrapper and fuzzy verifier

    A shallow embedding of the string-processing core of the label
    verifier:

    - [TextVerifier.levenshteinDistance], [TextVerifier.findBestMatch] and
      [TextVerifier.verifyText] (client/public/js/text-verifier.js);
    - [OCRProcessor.normalizeText] and [OCRProcessor.processImage]
      (the OCR module);
    - [FormValidator.validateField], [FormValidator.validateAllFields] and
      [FormValidator.getFormData] (the form validation module).

    Modelling conventions.

    - A JavaScript string is a sequence of code units.  The development
      covers the code units U+0000..U+00FF, written [ascii]; a string is a
      [list ascii].  On that range [toLowerCase], the regular-expression
      classes [\s], [\d], [.] and the [i] flag are modelled completely.
    - Lengths, indices and edit distances are [nat].
    - A confidence is an exact rational ([Q]); the source computes it in
      double precision.
    - The recognition dependency ([Tesseract.recognize]) is a parameter of
      the OCR wrapper, and so is the comparison of the logarithmic scores.
    - The document is the sequence of its input elements, each with its
      id, its value and its [required] attribute. *)

From Stdlib Require Import Arith ZArith QArith Qminmax Ascii String Lia Lqa.
From stdpp Require Import list strings gmap.

Abbreviation jsstring := (list ascii).

(** A string literal of the source, as a sequence of code units. *)
Definition js (s : string) : jsstring := list_ascii_of_string s.

Definition code (c : ascii) : nat := nat_of_ascii c.

Definition char_eqb (c d : ascii) : bool := Ascii.eqb c d.

Definition between (lo hi n : nat) : bool := (lo <=? n) && (n <=? hi).

(** ** Generic loops *)

(** [for (let i = lo; i < lo + n; i++) body] over a state [s]. *)
Fixpoint for_count {St : Type} (n lo : nat) (body : nat -> St -> St) (s : St) : St :=
  match n with
  | O => s
  | S n' => for_count n' (S lo) body (body lo s)
  end.

(** [for (let i = lo; i < hi; i++) body]. *)
Definition for_range {St : Type} (lo hi : nat) (body : nat -> St -> St) (s : St) : St :=
  for_count (hi - lo) lo body s.

(** ** TextVerifier.levenshteinDistance *)

Module Levenshtein.

(** The dynamic-programming matrix: an array of rows.  Every access of
    [levenshteinDistance] is in range; out of range a read yields the
    default and a write does nothing. *)
Abbreviation matrix := (list (list nat)).

(** [Array(rows).fill(null).map(() => Array(cols).fill(0))] *)
Definition new_matrix (rows cols : nat) : matrix :=
  replicate rows (replicate cols 0).

(** [m[i][j]] *)
Definition mget (m : matrix) (i j : nat) : nat := (m !!! i) !!! j.

(** [m[i][j] = v] *)
Definition mset (m : matrix) (i j v : nat) : matrix :=
  alter (fun row => <[j := v]> row) i m.

Definition min3 (x y z : nat) : nat := Nat.min (Nat.min x y) z.

(** [b[i - 1] === a[j - 1] ? 0 : 1]: indexing a string out of range yields
    [undefined], hence the comparison of optional code units. *)
Definition cost (a b : jsstring) (i j : nat) : nat :=
  if decide (b !! (i - 1) = a !! (j - 1)) then 0 else 1.

Definition levenshteinDistance (a b : jsstring) : nat :=
  if length a =? 0 then length b
  else if length b =? 0 then length a
  else
    let m := new_matrix (length b + 1) (length a + 1) in
    let m := for_range 0 (length b + 1) (fun i m => mset m i 0 i) m in
    let m := for_range 0 (length a + 1) (fun j m => mset m 0 j j) m in
    let m :=
      for_range 1 (length b + 1) (fun i m =>
        for_range 1 (length a + 1) (fun j m =>
          mset m i j
            (min3 (mget m (i - 1) (j - 1) + cost a b i j)
                  (mget m i (j - 1) + 1)
                  (mget m (i - 1) j + 1))) m) m in
    mget m (length b) (length a).

End Levenshtein.

Export Levenshtein.

(** ** Code units and character classes *)

Module Chars.

(** [\d] *)
Definition is_digit (c : ascii) : bool := between 48 57 (code c).

(** [\s], and the code units removed by [trim]: TAB, LF, VT, FF, CR, SP
    and NBSP. *)
Definition is_space (c : ascii) : bool :=
  let n := code c in between 9 13 n || (n =? 32) || (n =? 160).

(** The line terminators LF and CR, which [.] does not match. *)
Definition is_line_terminator (c : ascii) : bool :=
  let n := code c in (n =? 10) || (n =? 13).

(** [toLowerCase] on one code unit: A-Z and the capital letters
    U+00C0..U+00DE (the multiplication sign U+00D7 apart). *)
Definition lower_char (c : ascii) : ascii :=
  let n := code c in
  if between 65 90 n || (between 192 222 n && negb (n =? 215))
  then ascii_of_nat (n + 32) else c.

Definition toLowerCase (s : jsstring) : jsstring := map lower_char s.

(** The canonical form the [i] flag compares: the upper-case code unit,
    when there is one in the range. *)
Definition canonicalize (c : ascii) : ascii :=
  let n := code c in
  if between 97 122 n || (between 224 254 n && negb (n =? 247))
  then ascii_of_nat (n - 32) else c.

Fixpoint drop_while (p : ascii -> bool) (s : jsstring) : jsstring :=
  match s with
  | [] => []
  | c :: s' => if p c then drop_while p s' else s
  end.

(** [s.trim()] *)
Definition trim (s : jsstring) : jsstring :=
  reverse (drop_while is_space (reverse (drop_while is_space s))).

(** [s.startsWith(w)] *)
Fixpoint starts_with (w s : jsstring) : bool :=
  match w, s with
  | [], _ => true
  | _ :: _, [] => false
  | c :: w', d :: s' => char_eqb c d && starts_with w' s'
  end.

(** [s.includes(w)] *)
Fixpoint includes (s w : jsstring) : bool :=
  starts_with w s ||
  match s with
  | [] => false
  | _ :: s' => includes s' w
  end.

End Chars.

Export Chars.

(** ** Regular expressions

    The fragment the normaliser and the verifier use: a pattern is a
    sequence of quantified character sets, each possibly a capturing
    group, and of quantified back-references; quantifiers are greedy and
    backtrack.  All the patterns carry the [g] flag. *)

Module Regex.

Inductive cset : Type :=
  | Chr (c : ascii)          (* a pattern character *)
  | OneOf (cs : jsstring)    (* [li1] *)
  | Range (lo hi : ascii)    (* [A-Z] *)
  | Digit                    (* \d *)
  | Space                    (* \s *)
  | Dot.                     (* . *)

Inductive atom : Type :=
  | Rep (cs : cset) (lo : nat) (hi : option nat)   (* cs{lo,hi} *)
  | Cap (cs : cset) (lo : nat) (hi : option nat)   (* (cs{lo,hi}) *)
  | Back (k : nat) (lo : nat) (hi : option nat).   (* \k{lo,hi} *)

Record regex : Type := Regex { atoms : list atom; icase : bool }.

Definition canon (ic : bool) (c : ascii) : ascii :=
  if ic then canonicalize c else c.

(** Under the [i] flag a code unit is in a set when its canonical form is
    that of a member; canonicalisation only moves letters, so [\d], [\s]
    and [.] do not depend on the flag. *)
Definition cset_matches (ic : bool) (cs : cset) (ch : ascii) : bool :=
  match cs with
  | Chr c => char_eqb (canon ic c) (canon ic ch)
  | OneOf l => existsb (fun c => char_eqb (canon ic c) (canon ic ch)) l
  | Range lo hi =>
      existsb (fun n => char_eqb (canon ic (ascii_of_nat n)) (canon ic ch))
              (seq (code lo) (S (code hi) - code lo))
  | Digit => is_digit ch
  | Space => is_space ch
  | Dot => negb (is_line_terminator ch)
  end.

(** Number of leading code units of [s] that satisfy [p]. *)
Fixpoint span (p : ascii -> bool) (s : jsstring) : nat :=
  match s with
  | [] => 0
  | c :: s' => if p c then S (span p s') else 0
  end.

(** Number of leading copies of the non-empty word [w] in [s]. *)
Fixpoint copies (fuel : nat) (w s : jsstring) : nat :=
  match fuel with
  | O => 0
  | S fuel' =>
      if starts_with w s then S (copies fuel' w (drop (length w) s)) else 0
  end.

Definition at_most (hi : option nat) (n : nat) : nat :=
  match hi with
  | Some h => Nat.min h n
  | None => n
  end.

(** Greedy choice with backtracking: the continuation [k] is tried with
    [n], [n - 1], ... down to [lo] repetitions. *)
Fixpoint try_down {A : Type} (k : nat -> option A) (lo n : nat) : option A :=
  if n <? lo then None
  else
    match k n with
    | Some r => Some r
    | None =>
        match n with
        | O => None
        | S n' => try_down k lo n'
        end
    end.

Definition advance {A : Type} (n : nat) (r : option (A * nat)) : option (A * nat) :=
  match r with
  | Some (x, m) => Some (x, n + m)
  | None => None
  end.

(** [match_here ic pat caps s]: a match of [pat] at the start of [s];
    yields the captures and the number of code units matched. *)
Fixpoint match_here (ic : bool) (pat : list atom) (caps : list jsstring)
    (s : jsstring) : option (list jsstring * nat) :=
  match pat with
  | [] => Some (caps, 0)
  | Rep cs lo hi :: pat' =>
      try_down
        (fun n => advance n (match_here ic pat' caps (drop n s)))
        lo (at_most hi (span (cset_matches ic cs) s))
  | Cap cs lo hi :: pat' =>
      try_down
        (fun n => advance n (match_here ic pat' (caps ++ [take n s]) (drop n s)))
        lo (at_most hi (span (cset_matches ic cs) s))
  | Back k lo hi :: pat' =>
      let w := nth (k - 1) caps [] in
      if length w =? 0 then match_here ic pat' caps s
      else
        try_down
          (fun n => advance (n * length w)
                      (match_here ic pat' caps (drop (n * length w) s)))
          lo (at_most hi (copies (length s) w s))
  end.

(** Replacement patterns: literal text and [$k]. *)
Inductive piece : Type :=
  | Lit (s : jsstring)
  | Grp (k : nat).

Definition expand (tmpl : list piece) (caps : list jsstring) : jsstring :=
  concat (map (fun p => match p with
                        | Lit s => s
                        | Grp k => nth (k - 1) caps []
                        end) tmpl).

(** [s.replace(re, tmpl)] for a global [re]: [skip] is the number of code
    units of [s] still covered by the previous match. *)
Fixpoint replace_from (re : regex) (tmpl : list piece) (skip : nat)
    (s : jsstring) : jsstring :=
  match s with
  | [] =>
      match skip, match_here (icase re) (atoms re) [] [] with
      | O, Some (caps, _) => expand tmpl caps
      | _, _ => []
      end
  | c :: s' =>
      match skip with
      | S k => replace_from re tmpl k s'
      | O =>
          match match_here (icase re) (atoms re) [] s with
          | Some (caps, S n) => expand tmpl caps ++ replace_from re tmpl n s'
          | Some (caps, O) => expand tmpl caps ++ c :: replace_from re tmpl 0 s'
          | None => c :: replace_from re tmpl 0 s'
          end
      end
  end.

Definition replace (re : regex) (tmpl : list piece) (s : jsstring) : jsstring :=
  replace_from re tmpl 0 s.

(** [s.split(re)]: [cur] is the piece being read, [skip] as above; no
    match is looked for at the end of the string. *)
Fixpoint split_from (re : regex) (skip : nat) (cur : jsstring)
    (s : jsstring) : list jsstring :=
  match s with
  | [] => [cur]
  | c :: s' =>
      match skip with
      | S k => split_from re k cur s'
      | O =>
          match match_here (icase re) (atoms re) [] s with
          | Some (_, S n) => cur :: split_from re n [] s'
          | Some (_, O) =>
              match cur with
              | [] => split_from re 0 [c] s'
              | _ :: _ => cur :: split_from re 0 [c] s'
              end
          | None => split_from re 0 (cur ++ [c]) s'
          end
      end
  end.

Definition split (re : regex) (s : jsstring) : list jsstring :=
  match s with
  | [] =>
      match match_here (icase re) (atoms re) [] [] with
      | Some _ => []
      | None => [[]]
      end
  | _ :: _ => split_from re 0 [] s
  end.

(** Concrete syntax. *)
Definition one (cs : cset) : atom := Rep cs 1 (Some 1).
Definition group (cs : cset) : atom := Cap cs 1 (Some 1).
Definition chars (w : string) : list atom := map (fun c => one (Chr c)) (js w).
Definition any_of (w : string) : cset := OneOf (js w).
Definition plain (w : string) : list piece := [Lit (js w)].
Definition AZ : cset := Range "A"%char "Z"%char.

End Regex.

Export Regex.

(** ** OCRProcessor.normalizeText *)

Module Normalizer.

(** The patterns of [normalizeText], in the order of the source.  (The
    [charFixes] table the function declares is never read.) *)

(* /([A-Z])0([A-Z])/gi, /([A-Z])1([A-Z])/gi, /([A-Z])5([A-Z])/gi *)
Definition re_letter_digit_letter (d : ascii) : regex :=
  Regex [group AZ; one (Chr d); group AZ] true.

(* /(\d+)\s*o\/o/gi and /(\d+)\s*0\/0/gi *)
Definition re_percent (o : ascii) : regex :=
  Regex ([Cap Digit 1 None; Rep Space 0 None] ++
         [one (Chr o); one (Chr "/"%char); one (Chr o)]) true.

(* /pr[o0]{2}f/gi *)
Definition re_proof2 : regex :=
  Regex (chars "pr" ++ [Rep (any_of "o0") 2 (Some 2)] ++ chars "f") true.
(* /pr[o0]of/gi *)
Definition re_proof1 : regex :=
  Regex (chars "pr" ++ [one (any_of "o0")] ++ chars "of") true.

(* /wh[i1]sky/gi *)
Definition re_whisky : regex :=
  Regex (chars "wh" ++ [one (any_of "i1")] ++ chars "sky") true.
(* /wh[i1]skey/gi *)
Definition re_whiskey : regex :=
  Regex (chars "wh" ++ [one (any_of "i1")] ++ chars "skey") true.
(* /v[o0]dka/gi *)
Definition re_vodka : regex :=
  Regex (chars "v" ++ [one (any_of "o0")] ++ chars "dka") true.
(* /t[e3]qu[i1]la/gi *)
Definition re_tequila : regex :=
  Regex (chars "t" ++ [one (any_of "e3")] ++ chars "qu" ++
         [one (any_of "i1")] ++ chars "la") true.
(* /b[o0]urb[o0]n/gi *)
Definition re_bourbon : regex :=
  Regex (chars "b" ++ [one (any_of "o0")] ++ chars "urb" ++
         [one (any_of "o0")] ++ chars "n") true.
(* /c[o0]gnac/gi *)
Definition re_cognac : regex :=
  Regex (chars "c" ++ [one (any_of "o0")] ++ chars "gnac") true.
(* /[b8]randy/gi *)
Definition re_brandy : regex :=
  Regex ([one (any_of "b8")] ++ chars "randy") true.

(* /m[li1]/gi *)
Definition re_ml : regex := Regex (chars "m" ++ [one (any_of "li1")]) true.
(* /[o0]z/gi *)
Definition re_oz : regex := Regex ([one (any_of "o0")] ++ chars "z") true.

(* /\s+/g *)
Definition re_spaces : regex := Regex [Rep Space 1 None] false.
(* /(.)\1{3,}/g *)
Definition re_repeated : regex := Regex [group Dot; Back 1 3 None] false.

(** [normalized.replace(/\s+/g, ' ').trim()] *)
Definition collapse_whitespace (s : jsstring) : jsstring :=
  trim (replace re_spaces (plain " ") s).

(** [normalized.replace(/(.)\1{3,}/g, '$1$1')] *)
Definition collapse_repeats (s : jsstring) : jsstring :=
  replace re_repeated [Grp 1; Grp 1] s.

(** The volume-unit rules. *)
Definition fix_ml (s : jsstring) : jsstring := replace re_ml (plain "ml") s.
Definition fix_oz (s : jsstring) : jsstring := replace re_oz (plain "oz") s.

Definition normalizeText (text0 : jsstring) : jsstring :=
  match text0 with
  | [] => []
  | _ :: _ =>
      let normalized := text0 in
      let normalized :=
        replace (re_letter_digit_letter "0") [Grp 1; Lit (js "O"); Grp 2] normalized in
      let normalized :=
        replace (re_letter_digit_letter "1") [Grp 1; Lit (js "I"); Grp 2] normalized in
      let normalized :=
        replace (re_letter_digit_letter "5") [Grp 1; Lit (js "S"); Grp 2] normalized in
      let normalized := replace (re_percent "o") [Grp 1; Lit (js "%")] normalized in
      let normalized := replace (re_percent "0") [Grp 1; Lit (js "%")] normalized in
      let normalized := replace re_proof2 (plain "proof") normalized in
      let normalized := replace re_proof1 (plain "proof") normalized in
      let normalized := replace re_whisky (plain "whisky") normalized in
      let normalized := replace re_whiskey (plain "whiskey") normalized in
      let normalized := replace re_vodka (plain "vodka") normalized in
      let normalized := replace re_tequila (plain "tequila") normalized in
      let normalized := replace re_bourbon (plain "bourbon") normalized in
      let normalized := replace re_cognac (plain "cognac") normalized in
      let normalized := replace re_brandy (plain "brandy") normalized in
      let normalized := fix_ml normalized in
      let normalized := fix_oz normalized in
      let normalized := collapse_whitespace normalized in
      let normalized := collapse_repeats normalized in
      normalized
  end.

End Normalizer.

Export Normalizer.

(** ** Results and errors *)

(** A call either returns a value or throws [new Error(msg)]. *)
Inductive outcome (A : Type) : Type :=
  | Ok (a : A)
  | Throw (msg : string).

Arguments Ok {A} a.
Arguments Throw {A} msg.

(** [x > y] on numbers. *)
Definition Qgtb (x y : Q) : bool := negb (Qle_bool x y).

Definition Qnat (n : nat) : Q := inject_Z (Z.of_nat n).

(** ** TextVerifier.findBestMatch and TextVerifier.verifyText *)

Module Verifier.

(** A distance, or the initial [Infinity] of the search. *)
Inductive dist : Type :=
  | Fin (n : nat)
  | Infinity.

(** [d < best] *)
Definition below (d : nat) (best : dist) : bool :=
  match best with
  | Fin n => d <? n
  | Infinity => true
  end.

(** [{ distance, word }]; [word] is [null] until a candidate is kept. *)
Record candidate : Type := Candidate { distance : dist; word : option jsstring }.

(** [{ distance, word, confidence }] *)
Record best_match : Type :=
  BestMatch { bm_distance : dist; bm_word : option jsstring; bm_confidence : Q }.

(** [for (let j = lo; cond(j); j++) body]; the loops it is used for run at
    most [fuel] times. *)
Fixpoint for_while {St : Type} (fuel lo : nat) (cond : nat -> bool)
    (body : nat -> St -> St) (s : St) : St :=
  match fuel with
  | O => s
  | S fuel' =>
      if cond lo then for_while fuel' (S lo) cond body (body lo s) else s
  end.

(** [l.join(sep)] *)
Fixpoint join (sep : jsstring) (l : list jsstring) : jsstring :=
  match l with
  | [] => []
  | [x] => x
  | x :: l' => x ++ sep ++ join sep l'
  end.

(** [l.slice(i, j)] *)
Definition slice {A : Type} (i j : nat) (l : list A) : list A :=
  take (j - i) (drop i l).

(** [if (distance < bestMatch.distance) bestMatch = { distance, word }] *)
Definition keep_better (searchValue w : jsstring) (best : candidate) : candidate :=
  let d := levenshteinDistance searchValue w in
  if below d (distance best) then Candidate (Fin d) (Some w) else best.

(** The scan over single words and phrases of two or three words. *)
Definition scan (searchValue : jsstring) (words : list jsstring) : candidate :=
  for_range 0 (length words) (fun i best =>
    let best := keep_better searchValue (words !!! i) best in
    for_while 2 1 (fun j => (j <? 3) && (i + j <? length words))
      (fun j best =>
         let phrase := join (js " ") (slice i (i + j + 1) words) in
         keep_better searchValue phrase best)
      best)
    (Candidate Infinity None).

(** [maxLength > 0 ? Math.max(0, 1 - distance / maxLength) : 0] *)
Definition confidence_of (d : dist) (maxLength : nat) : Q :=
  if 0 <? maxLength then
    match d with
    | Fin n => Qmax 0 (1 - Qnat n / Qnat maxLength)
    | Infinity => 0
    end
  else 0.

Definition findBestMatch (searchValue text0 : jsstring) : best_match :=
  if includes text0 searchValue then BestMatch (Fin 0) (Some searchValue) 1
  else
    let words := split re_spaces text0 in
    let bestMatch := scan searchValue words in
    let maxLength :=
      Nat.max (length searchValue)
              (match word bestMatch with Some w => length w | None => 0 end) in
    let confidence := confidence_of (distance bestMatch) maxLength in
    BestMatch (distance bestMatch) (word bestMatch) confidence.

(** One entry of the array [verifyText] resolves to. *)
Record result : Type := Result {
  field : jsstring;
  input : jsstring;
  found : bool;
  confidence : Q;
  bestMatch : option jsstring
}.

(** [fields] is the sequence [Object.entries(fields)], every value a
    string.  The progress callback and the pause between two fields have
    no part in the value the promise resolves to, and are left out. *)
Definition verifyText (extractedText : jsstring)
    (fields : list (jsstring * jsstring)) : outcome (list result) :=
  match extractedText with
  | [] => Throw "No text extracted from image"
  | _ :: _ =>
      let text0 := toLowerCase extractedText in
      let fieldEntries :=
        filter (fun e => snd e <> []) fields in
      let totalFields := length fieldEntries in
      Ok (for_range 0 totalFields (fun i results =>
            let '(fieldName, fieldValue) := fieldEntries !!! i in
            let searchValue := toLowerCase fieldValue in
            let m := findBestMatch searchValue text0 in
            results ++ [Result fieldName fieldValue
                          (Qgtb (bm_confidence m) (7 # 10))
                          (bm_confidence m) (bm_word m)])
          [])
  end.

End Verifier.

Export Verifier.

(** ** OCRProcessor.processImage *)

Module OCR.

Record config : Type := Config {
  name : string;
  tessedit_pageseg_mode : nat;
  tessedit_ocr_engine_mode : nat;
  preserve_interword_spaces : string
}.

Definition ocrConfigs : list config :=
  [ Config "Sparse Text" 11 1 "1";
    Config "Auto Detection" 3 1 "1";
    Config "Single Block" 6 1 "1";
    Config "Raw Line" 13 2 "1" ].

(** What one call of [Tesseract.recognize] does: it resolves to
    [{ data: { text, confidence } }] or it throws. *)
Inductive recognition : Type :=
  | Recognized (text0 : jsstring) (confidence0 : Q)
  | Failed.

(** [{ text, confidence }] *)
Record ocr_result : Type := OcrResult { text : jsstring; ocr_confidence : Q }.

(** [confidence > 80 && normalizedText.length > 50] *)
Definition good_enough (confidence0 : Q) (normalizedText : jsstring) : bool :=
  Qgtb confidence0 80 && (50 <? length normalizedText).

Section ProcessImage.

(** The recognition dependency: a state [world], which a call reads and
    changes. *)
Variable world : Type.
Variable recognize : world -> config -> recognition * world.

(** [score_above c n c' n'] stands for
    [c * Math.log(n + 1) > c' * Math.log(n' + 1)]. *)
Variable score_above : Q -> nat -> Q -> nat -> bool.

(** State of the loop: the dependency, [bestResult] ([None] for [null])
    and the calls made so far with what they did. *)
Record loop_state : Type := LoopState {
  ls_world : world;
  bestResult : option ocr_result;
  calls : list (config * recognition)
}.

Definition better (confidence0 : Q) (normalizedText : jsstring)
    (best : option ocr_result) : option ocr_result :=
  match best with
  | None => Some (OcrResult normalizedText confidence0)
  | Some b =>
      if score_above confidence0 (length normalizedText)
                     (ocr_confidence b) (length (text b))
      then Some (OcrResult normalizedText confidence0)
      else best
  end.

(** The loop over the configurations: a failed call is caught and the
    loop goes on; a good enough result leaves the loop.  The progress
    callback is left out. *)
Fixpoint attempt (cfgs : list config) (st : loop_state) : loop_state :=
  match cfgs with
  | [] => st
  | cfg :: rest =>
      let '(r, w) := recognize (ls_world st) cfg in
      let log := calls st ++ [(cfg, r)] in
      match r with
      | Recognized text0 confidence0 =>
          let normalizedText := normalizeText text0 in
          let best := better confidence0 normalizedText (bestResult st) in
          if good_enough confidence0 normalizedText
          then LoopState w best log
          else attempt rest (LoopState w best log)
      | Failed => attempt rest (LoopState w (bestResult st) log)
      end
  end.

Definition finish (st : loop_state) : outcome ocr_result :=
  match bestResult st with
  | None => Throw "All OCR attempts failed"
  | Some b => Ok b
  end.

(** [processImage] on the configurations [cfgs]; besides the outcome it
    yields the calls made to the recognition dependency. *)
Definition processImage_with (cfgs : list config) (w : world)
    : outcome ocr_result * list (config * recognition) :=
  let st := attempt cfgs (LoopState w None []) in
  (finish st, calls st).

Definition processImage (w : world)
    : outcome ocr_result * list (config * recognition) :=
  processImage_with ocrConfigs w.

End ProcessImage.

Arguments LoopState {world}.
Arguments ls_world {world}.
Arguments bestResult {world}.
Arguments calls {world}.

End OCR.

Export OCR.

(** ** FormValidator *)

Module Validator.

(** The patterns of [validationRules].  [test] asks whether some part of
    the value matches, so that a pattern stands for the set of strings it
    matches: greedy and lazy quantifiers are the same star. *)
Inductive rx : Type :=
  | Void                     (* matches nothing *)
  | Eps                      (* the empty string *)
  | Sym (cs : cset)          (* one code unit of a set *)
  | AnyUnit                  (* one code unit, line terminators included *)
  | Seq (r1 r2 : rx)         (* r1 r2 *)
  | Alt (r1 r2 : rx)         (* r1|r2 *)
  | Star (r : rx).           (* r* and r*? *)

(** [r+], [r?], a word, and a choice of words. *)
Definition plus (r : rx) : rx := Seq r (Star r).
Definition opt (r : rx) : rx := Alt r Eps.
Definition lit (w : string) : rx :=
  fold_right (fun c r => Seq (Sym (Chr c)) r) Eps (js w).
Definition one_of (ws : list string) : rx :=
  fold_right (fun w r => Alt (lit w) r) Void ws.

Fixpoint nullable (r : rx) : bool :=
  match r with
  | Void | Sym _ | AnyUnit => false
  | Eps | Star _ => true
  | Seq r1 r2 => nullable r1 && nullable r2
  | Alt r1 r2 => nullable r1 || nullable r2
  end.

(** What is left of [r] after the code unit [c]. *)
Fixpoint deriv (ic : bool) (c : ascii) (r : rx) : rx :=
  match r with
  | Void | Eps => Void
  | Sym cs => if cset_matches ic cs c then Eps else Void
  | AnyUnit => Eps
  | Seq r1 r2 =>
      if nullable r1
      then Alt (Seq (deriv ic c r1) r2) (deriv ic c r2)
      else Seq (deriv ic c r1) r2
  | Alt r1 r2 => Alt (deriv ic c r1) (deriv ic c r2)
  | Star r1 => Seq (deriv ic c r1) (Star r1)
  end.

(** The whole of [s] matches [r]. *)
Fixpoint full_match (ic : bool) (r : rx) (s : jsstring) : bool :=
  match s with
  | [] => nullable r
  | c :: s' => full_match ic (deriv ic c r) s'
  end.

(** A pattern with its [i] flag and its anchors [^] and [$]. *)
Record pattern : Type := Pattern {
  body : rx;
  ignore_case : bool;
  from_start : bool;
  to_end : bool
}.

(** [pattern.test(value)] (no [g] flag: every call searches from the
    start). *)
Definition test (p : pattern) (value0 : jsstring) : bool :=
  full_match (ignore_case p)
    (Seq (if from_start p then Eps else Star AnyUnit)
       (Seq (body p) (if to_end p then Eps else Star AnyUnit)))
    value0.

Record rule : Type := Rule { rule_pattern : pattern; message : string }.

Definition digit09 : rx := Sym (Range "0"%char "9"%char).

(* /^[0-9]+(\.[0-9]+)?\s*(%|proof)?$/i *)
Definition alcoholContent_pattern : pattern :=
  Pattern
    (Seq (plus digit09)
       (Seq (opt (Seq (Sym (Chr "."%char)) (plus digit09)))
          (Seq (Star (Sym Space))
             (opt (Alt (Sym (Chr "%"%char)) (lit "proof"))))))
    true true true.

Definition volume_units : list string :=
  [ "ml"; "mL"; "ML"; "l"; "L"; "liter"; "liters"; "oz"; "fl oz"; "fl. oz.";
    "ounce"; "ounces"; "gal"; "gallon"; "gallons"; "pt"; "pint"; "pints";
    "qt"; "quart"; "quarts"; "pintl" ]%string.

(* /[0-9]+.*?(ml|mL|ML|l|L|liter|liters|oz|fl oz|fl\. oz\.|ounce|ounces|gal|gallon|gallons|pt|pint|pints|qt|quart|quarts|pintl)/i *)
Definition netContents_pattern : pattern :=
  Pattern
    (Seq (plus digit09) (Seq (Star (Sym Dot)) (one_of volume_units)))
    true false false.

(** [this.validationRules]: an object used as a map from the id of a field
    to its rule. *)
Definition validationRules : gmap string rule :=
  <["alcoholContent"%string :=
      Rule alcoholContent_pattern
        "Enter a valid number with optional % or proof (e.g., 40%, 80 proof, or 45)"]>
  (<["netContents"%string :=
      Rule netContents_pattern "Enter a valid volume (e.g., 750 mL, 25.4 oz)"]> ∅).

(** An input element of the form: its [id], its [value], and whether it
    carries the [required] attribute. *)
Record input_element : Type := Input {
  id : string;
  value : jsstring;
  required : bool
}.

Definition validateField (field0 : input_element) : bool :=
  let value0 := trim (value field0) in
  match value0 with
  | [] => false
  | _ :: _ =>
      match validationRules !! id field0 with
      | Some rule0 =>
          if negb (test (rule_pattern rule0) value0) then false else true
      | None => true
      end
  end.

(** The document: its input elements, in document order. *)
Abbreviation document := (list input_element).

(** [document.querySelectorAll('input[required]')] *)
Definition required_inputs (doc : document) : list input_element :=
  filter (fun e => required e = true) doc.

(** [document.getElementById(id)?.value || ''] *)
Definition value_of (doc : document) (id0 : string) : jsstring :=
  match find (fun e => String.eqb (id e) id0) doc with
  | Some e => value e
  | None => []
  end.

Definition validateAllFields (doc : document) : bool :=
  fold_left (fun isValid field0 =>
               if negb (validateField field0) then false else isValid)
            (required_inputs doc) true.

Definition getFormData (doc : document) : list (jsstring * jsstring) :=
  [ (js "brandName", value_of doc "brandName");
    (js "productClass", value_of doc "productClass");
    (js "alcoholContent", value_of doc "alcoholContent");
    (js "netContents", value_of doc "netContents");
    (js "manufacturerName", value_of doc "manufacturerName");
    (js "manufacturerAddress", value_of doc "manufacturerAddress") ].

End Validator.

Export Validator.

(* ================================================================= *)
(** * Vocabulary of the properties *)

(** ** Edit distance *)

(** The recurrence the matrix of [levenshteinDistance a b] is filled
    with: the content of cell [(i, j)] once the loops are over. *)
Fixpoint cell (a b : jsstring) (i : nat) : nat -> nat :=
  match i with
  | O => fun j => j
  | S i' =>
      fix row (j : nat) : nat :=
        match j with
        | O => S i'
        | S j' =>
            min3 (cell a b i' j' + cost a b (S i') (S j'))
                 (row j' + 1)
                 (cell a b i' (S j') + 1)
        end
  end.

(** Shape of the matrix of [levenshteinDistance a b]: [length b + 1] rows
    of [length a + 1] cells. *)
Definition wf_matrix (a b : jsstring) (m : matrix) : Prop :=
  length m = length b + 1 /\ Forall (fun r => length r = length a + 1) m.

(** State of the matrix when the main loop is at row [i], column [j]:
    the first column, the rows above [i] and the cells of row [i] to the
    left of [j] hold the values of the recurrence. *)
Definition filled (a b : jsstring) (i j : nat) (m : matrix) : Prop :=
  wf_matrix a b m /\
  (forall i', i' < length b + 1 -> mget m i' 0 = i') /\
  (forall i' j', i' < i -> i' < length b + 1 -> j' < length a + 1 ->
                 mget m i' j' = cell a b i' j') /\
  (forall j', j' < j -> j' < length a + 1 -> i < length b + 1 ->
              mget m i j' = cell a b i j').

(** Cost of putting [y] in the place of [x]. *)
Definition subst_cost (x y : ascii) : nat := if decide (x = y) then 0 else 1.

(** [script a b n]: [a] is turned into [b] by edits of total cost [n],
    read from the start of the strings: keep or substitute a code unit,
    delete one, insert one. *)
Inductive script : jsstring -> jsstring -> nat -> Prop :=
  | script_nil : script [] [] 0
  | script_subst x y a b n :
      script a b n -> script (x :: a) (y :: b) (n + subst_cost x y)
  | script_delete x a b n : script a b n -> script (x :: a) b (n + 1)
  | script_insert y a b n : script a b n -> script a (y :: b) (n + 1).

(** The same edits, read from the end of the strings. *)
Inductive script_end : jsstring -> jsstring -> nat -> Prop :=
  | script_end_nil : script_end [] [] 0
  | script_end_subst x y a b n :
      script_end a b n -> script_end (a ++ [x]) (b ++ [y]) (n + subst_cost x y)
  | script_end_delete x a b n : script_end a b n -> script_end (a ++ [x]) b (n + 1)
  | script_end_insert y a b n : script_end a b n -> script_end a (b ++ [y]) (n + 1).

(** ** Fuzzy verifier *)

(** Order on distances, [Infinity] on top. *)
Definition dist_le (d d' : dist) : Prop :=
  match d, d' with
  | Fin n, Fin n' => n <= n'
  | _, Infinity => True
  | Infinity, Fin _ => False
  end.

(** Length the confidence is relative to:
    [Math.max(searchValue.length, bestMatch.word?.length || 0)]. *)
Definition norm_length (expected : jsstring) (m : best_match) : nat :=
  Nat.max (length expected)
          (match bm_word m with Some w => length w | None => 0 end).

(** The entry [verifyText] pushes for one field. *)
Definition verify_entry (text0 : jsstring) (e : jsstring * jsstring) : result :=
  let m := findBestMatch (toLowerCase (snd e)) text0 in
  Result (fst e) (snd e) (Qgtb (bm_confidence m) (7 # 10))
         (bm_confidence m) (bm_word m).

(** A candidate is consistent when its distance is the distance of its
    word, and is [Infinity] only with the word [null]. *)
Definition linked (searchValue : jsstring) (c : candidate) : Prop :=
  match distance c, word c with
  | Fin d, Some w => d = levenshteinDistance searchValue w
  | Infinity, None => True
  | _, _ => False
  end.

(** The words and phrases the scan compares with the search value at
    position [i], in the order of the comparisons. *)
Definition phrases_at (words : list jsstring) (i : nat) : list jsstring :=
  (words !!! i) ::
  (if i + 1 <? length words then
     join (js " ") (slice i (i + 1 + 1) words) ::
     (if i + 2 <? length words
      then [join (js " ") (slice i (i + 2 + 1) words)] else [])
   else []).

Definition candidates (words : list jsstring) : list jsstring :=
  flat_map (phrases_at words) (seq 0 (length words)).

(** ** OCR wrapper *)

(** A call that ends the loop: the recognition succeeded with
    [confidence > 80] and a normalised text longer than 50. *)
Definition ends_loop (r : recognition) : bool :=
  match r with
  | Recognized text0 confidence0 => good_enough confidence0 (normalizeText text0)
  | Failed => false
  end.

(** The shape of the calls one run of the loop makes on configurations
    [cfgs]: one call per configuration, in order, up to and including the
    first call that ends the loop. *)
Inductive run : list config -> list (config * recognition) -> Prop :=
  | run_done : run [] []
  | run_stop cfg rest r :
      ends_loop r = true -> run (cfg :: rest) [(cfg, r)]
  | run_next cfg rest r log :
      ends_loop r = false -> run rest log -> run (cfg :: rest) ((cfg, r) :: log).

(** [b] is what some successful call of [log] recognised, normalised. *)
Definition recognised_in (log : list (config * recognition)) (b : ocr_result) : Prop :=
  exists cfg text0 confidence0,
    (cfg, Recognized text0 confidence0) ∈ log /\
    b = OcrResult (normalizeText text0) confidence0.

(** A recogniser that reads the same text, with confidence 91, for every
    configuration, and one that fails for every configuration. *)
Definition sample_text : jsstring :=
  js "OLD TOM DISTILLERY Kentucky Straight Bourbon Whiskey 45% Alc./Vol. 750 ML".

Definition steady_recognizer (w : nat) (cfg : config) : recognition * nat :=
  (Recognized sample_text 91, S w).

Definition broken_recognizer (w : nat) (cfg : config) : recognition * nat :=
  (Failed, S w).

Definition sample_score (c : Q) (n : nat) (c' : Q) (n' : nat) : bool :=
  Qgtb (c * Qnat n) (c' * Qnat n').

(** [best] scores at least as high as every successful call of [log],
    for the score [score confidence length]. *)
Definition dominates (score : Q -> nat -> Q) (best : option ocr_result)
    (log : list (config * recognition)) : Prop :=
  forall cfg text0 confidence0,
    (cfg, Recognized text0 confidence0) ∈ log ->
    exists b, best = Some b /\
      (score confidence0 (length (normalizeText text0)) <=
       score (ocr_confidence b) (length (text b)))%Q.

(** A recogniser that fails on its first call and then reads a short text
    with a confidence that rises with the calls, and a score. *)
Definition rising_recognizer (w : nat) (cfg : config) : recognition * nat :=
  (match w with
   | O => Failed
   | S _ => Recognized (js "OLD TOM") (79 + Qnat w)
   end, S w).

Definition sample_quality (c : Q) (n : nat) : Q := c * Qnat n.

(** ** Measures of a pattern *)

(** Least number of code units the atoms outside groups match. *)
Fixpoint min_width (pat : list atom) : nat :=
  match pat with
  | [] => 0
  | Rep _ lo _ :: pat' => lo + min_width pat'
  | _ :: pat' => min_width pat'
  end.

(** Number of capturing groups. *)
Fixpoint group_count (pat : list atom) : nat :=
  match pat with
  | [] => 0
  | Cap _ _ _ :: pat' => S (group_count pat')
  | _ :: pat' => group_count pat'
  end.

(** No back-reference. *)
Fixpoint no_back (pat : list atom) : bool :=
  match pat with
  | [] => true
  | Back _ _ _ :: _ => false
  | _ :: pat' => no_back pat'
  end.

(** ** Language of a pattern *)

(** [lang ic r s]: the string [s] is one of those [r] stands for, under
    the [i] flag [ic]. *)
Inductive lang (ic : bool) : rx -> jsstring -> Prop :=
  | lang_eps : lang ic Eps []
  | lang_sym cs c : cset_matches ic cs c = true -> lang ic (Sym cs) [c]
  | lang_any c : lang ic AnyUnit [c]
  | lang_seq r1 r2 s1 s2 :
      lang ic r1 s1 -> lang ic r2 s2 -> lang ic (Seq r1 r2) (s1 ++ s2)
  | lang_alt_l r1 r2 s : lang ic r1 s -> lang ic (Alt r1 r2) s
  | lang_alt_r r1 r2 s : lang ic r2 s -> lang ic (Alt r1 r2) s
  | lang_star_nil r : lang ic (Star r) []
  | lang_star_cons r s1 s2 :
      lang ic r s1 -> lang ic (Star r) s2 -> lang ic (Star r) (s1 ++ s2).

(** The code units, for the checks that go through all of them. *)
Definition all_units : list ascii := map ascii_of_nat (seq 0 256).

(** ** Form *)

(** The ids [getFormData] reads, in its order. *)
Definition form_ids : list string :=
  [ "brandName"; "productClass"; "alcoholContent"; "netContents";
    "manufacturerName"; "manufacturerAddress" ]%string.

(** A filled form, every input required. *)
Definition sample_form : document :=
  [ Input "brandName" (js "ABC") true;
    Input "productClass" (js "STRAIGHT RYE WHISKY") true;
    Input "alcoholContent" (js "45%") true;
    Input "netContents" (js "750 ML") true;
    Input "manufacturerName" (js "ABC DISTILLERY") true;
    Input "manufacturerAddress" (js "FREDERICK, MD") true ].

(** ** Normalised text *)

(** Text without a leading whitespace. *)
Definition no_lead (s : jsstring) : Prop :=
  match s with
  | [] => True
  | c :: _ => is_space c = false
  end.

(** Text whose whitespace is single spaces. *)
Fixpoint single (s : jsstring) : Prop :=
  match s with
  | [] => True
  | c :: s' => (is_space c = true -> c = " "%char /\ no_lead s') /\ single s'
  end.

(** Text whose whitespace is single spaces between two other code units. *)
Fixpoint spaced (s : jsstring) : Prop :=
  match s with
  | [] => True
  | c :: s' =>
      (is_space c = true -> c = " "%char /\ s' <> [] /\ no_lead s') /\ spaced s'
  end.

(** The texts the whitespace rule leaves alone. *)
Definition tidy (s : jsstring) : Prop := no_lead s /\ spaced s.

(* ================================================================= *)
(** * Properties *)

(** ** Loops *)

Lemma for_count_ind {St : Type} (P : nat -> St -> Prop) (body : nat -> St -> St) :
  forall n lo s,
    P lo s ->
    (forall i t, lo <= i < lo + n -> P i t -> P (S i) (body i t)) ->
    P (lo + n) (for_count n lo body s).
Proof.
  induction n as [|n IH]; intros lo s H0 Hstep; simpl.
  - by rewrite Nat.add_0_r.
  - replace (lo + S n) with (S lo + n) by lia.
    apply IH.
    + apply Hstep; [lia | done].
    + intros i t Hi. apply Hstep. lia.
Qed.

Lemma for_range_ind {St : Type} (P : nat -> St -> Prop) (body : nat -> St -> St)
    (lo hi : nat) (s : St) :
  lo <= hi ->
  P lo s ->
  (forall i t, lo <= i < hi -> P i t -> P (S i) (body i t)) ->
  P hi (for_range lo hi body s).
Proof.
  intros Hle H0 Hstep. unfold for_range.
  replace hi with (lo + (hi - lo)) at 1 by lia.
  apply for_count_ind; [done |].
  intros i t Hi. apply Hstep. lia.
Qed.

(** ** The edit-distance matrix *)

Section LevenshteinMatrix.

Variables a b : jsstring.

Local Abbreviation rows := (length b + 1).
Local Abbreviation cols := (length a + 1).

Lemma wf_new_matrix : wf_matrix a b (new_matrix rows cols).
Proof.
  split; [apply length_replicate |].
  apply Forall_replicate, length_replicate.
Qed.

Lemma wf_mset m i j v : wf_matrix a b m -> wf_matrix a b (mset m i j v).
Proof.
  intros [Hl Hr]. split; unfold mset.
  - by rewrite length_alter.
  - apply Forall_alter; [done |].
    intros r _ Hlen. by rewrite length_insert.
Qed.

Lemma wf_row m i : wf_matrix a b m -> i < rows -> length (m !!! i) = cols.
Proof.
  intros [Hl Hr] Hi.
  destruct (lookup_lt_is_Some_2 m i) as [r Hri]; [lia |].
  rewrite (list_lookup_total_correct _ _ _ Hri).
  by apply (Forall_lookup_1 _ _ _ _ Hr Hri).
Qed.

Lemma mget_mset_eq m i j v :
  wf_matrix a b m -> i < rows -> j < cols -> mget (mset m i j v) i j = v.
Proof.
  intros Hwf Hi Hj. unfold mget, mset.
  rewrite list_lookup_total_alter_eq by (destruct Hwf; lia).
  apply list_lookup_total_insert_eq. rewrite wf_row; done.
Qed.

Lemma mget_mset_ne m i j v i' j' :
  wf_matrix a b m -> i <> i' \/ j <> j' -> mget (mset m i j v) i' j' = mget m i' j'.
Proof.
  intros Hwf Hne. unfold mget, mset.
  destruct (decide (i = i')) as [<- | Hii].
  - destruct Hne as [? | Hjj]; [done |].
    destruct (decide (i < length m)) as [Hlt | Hge].
    + rewrite list_lookup_total_alter_eq by done.
      by rewrite list_lookup_total_insert_ne.
    + rewrite !list_lookup_total_alt.
      rewrite list_lookup_alter_eq.
      by rewrite (lookup_ge_None_2 m i) by lia.
  - by rewrite list_lookup_total_alter_ne.
Qed.

Lemma cell_col0 i : cell a b i 0 = i.
Proof. by destruct i. Qed.

Lemma init_filled :
  filled a b 1 1
    (for_range 0 cols (fun j m => mset m 0 j j)
       (for_range 0 rows (fun i m => mset m i 0 i) (new_matrix rows cols))).
Proof.
  assert (H1 : let m := for_range 0 rows (fun i m => mset m i 0 i)
                          (new_matrix rows cols) in
               wf_matrix a b m /\ forall i', i' < rows -> mget m i' 0 = i').
  { apply (for_range_ind
             (fun i m => wf_matrix a b m /\ forall i', i' < i -> mget m i' 0 = i')).
    - lia.
    - split; [apply wf_new_matrix | lia].
    - intros i m Hi [Hwf Hc]. split; [by apply wf_mset |].
      intros i' Hi'. destruct (decide (i' = i)) as [-> | Hne].
      + apply mget_mset_eq; [done | lia | lia].
      + rewrite mget_mset_ne by (assumption || lia). apply Hc. lia. }
  destruct H1 as [Hwf1 Hc1].
  set (m1 := for_range 0 rows _ _) in *.
  assert (H2 : let m := for_range 0 cols (fun j m => mset m 0 j j) m1 in
               wf_matrix a b m /\ (forall i', i' < rows -> mget m i' 0 = i') /\
               forall j', j' < cols -> mget m 0 j' = j').
  { apply (for_range_ind
             (fun j m => wf_matrix a b m /\ (forall i', i' < rows -> mget m i' 0 = i') /\
                         forall j', j' < j -> mget m 0 j' = j')).
    - lia.
    - repeat split; [apply Hwf1.. | done | lia].
    - intros j m Hj (Hwf & Hc & Hr). split; [by apply wf_mset |]. split.
      + intros i' Hi'. destruct (decide (i' = 0 /\ j = 0)) as [[-> ->] | Hne].
        * apply mget_mset_eq; [done | lia | lia].
        * rewrite mget_mset_ne by (assumption || lia). by apply Hc.
      + intros j' Hj'. destruct (decide (j' = j)) as [-> | Hne].
        * apply mget_mset_eq; [done | lia | lia].
        * rewrite mget_mset_ne by (assumption || lia). apply Hr. lia. }
  destruct H2 as (Hwf2 & Hc2 & Hr2).
  repeat split; try apply Hwf2; try done.
  - intros i' j' Hi' _ Hj'. assert (i' = 0) as -> by lia. by apply Hr2.
  - intros j' Hj' _ Hr. assert (j' = 0) as -> by lia.
    rewrite cell_col0. by apply Hc2.
Qed.

Lemma row_filled i m :
  1 <= i < rows ->
  filled a b i 1 m ->
  filled a b (S i) 1
    (for_range 1 cols (fun j m =>
       mset m i j
         (min3 (mget m (i - 1) (j - 1) + cost a b i j)
               (mget m i (j - 1) + 1)
               (mget m (i - 1) j + 1))) m).
Proof.
  intros Hi Hm.
  assert (H : filled a b i cols
                (for_range 1 cols (fun j m =>
                   mset m i j
                     (min3 (mget m (i - 1) (j - 1) + cost a b i j)
                           (mget m i (j - 1) + 1)
                           (mget m (i - 1) j + 1))) m)).
  { apply (for_range_ind (fun j m => filled a b i j m)); [lia | done |].
    intros j t Hj (Hwf & Hc & Hup & Hrow).
    split; [by apply wf_mset |]. split; [| split].
    - intros i' Hi'. rewrite mget_mset_ne by (assumption || lia). by apply Hc.
    - intros i' j' Hi' Hr Hj'. rewrite mget_mset_ne by (assumption || lia). by apply Hup.
    - intros j' Hj' Hjc Hr. destruct (decide (j' = j)) as [-> | Hne].
      + rewrite mget_mset_eq by (assumption || lia).
        destruct i as [|i']; [lia |]. destruct j as [|j0]; [lia |].
        simpl cell. replace (S i' - 1) with i' by lia.
        replace (S j0 - 1) with j0 by lia.
        rewrite (Hup i' j0), (Hup i' (S j0)), (Hrow j0) by lia.
        done.
      + rewrite mget_mset_ne by (assumption || lia). apply Hrow; lia. }
  destruct H as (Hwf & Hc & Hup & Hrow).
  repeat split; try apply Hwf; try done.
  - intros i' j' Hi' Hr Hj'. destruct (decide (i' = i)) as [-> | Hne].
    + by apply Hrow.
    + apply Hup; lia.
  - intros j' Hj' _ Hr. assert (j' = 0) as -> by lia.
    rewrite cell_col0. by apply Hc.
Qed.

(** The value returned is the cell of the recurrence in the last row and
    the last column. *)
Lemma levenshteinDistance_cell :
  levenshteinDistance a b = cell a b (length b) (length a).
Proof.
  unfold levenshteinDistance.
  destruct (Nat.eqb_spec (length a) 0) as [Ha | Ha].
  { rewrite Ha. by rewrite cell_col0. }
  destruct (Nat.eqb_spec (length b) 0) as [Hb | Hb].
  { rewrite Hb. done. }
  pose proof init_filled as H0.
  set (m0 := for_range 0 cols _ _) in *.
  assert (H : filled a b rows 1
                (for_range 1 rows (fun i m =>
                   for_range 1 cols (fun j m =>
                     mset m i j
                       (min3 (mget m (i - 1) (j - 1) + cost a b i j)
                             (mget m i (j - 1) + 1)
                             (mget m (i - 1) j + 1))) m) m0)).
  { apply (for_range_ind (fun i m => filled a b i 1 m)); [lia | done |].
    intros i t Hi Ht. by apply row_filled. }
  destruct H as (_ & _ & Hup & _).
  apply Hup; lia.
Qed.

End LevenshteinMatrix.

Lemma cost_sym a b i j : cost a b i j = cost b a j i.
Proof. unfold cost. repeat case_decide; congruence. Qed.

Lemma min3_swap x y z : min3 x y z = min3 x z y.
Proof. unfold min3. lia. Qed.

(** Transposing the matrix exchanges the roles of the two strings. *)
Lemma cell_transpose a b : forall i j, cell a b i j = cell b a j i.
Proof.
  induction i as [|i IHi]; intros j.
  - by rewrite cell_col0.
  - induction j as [|j IHj]; [done |].
    change (cell a b (S i) (S j))
      with (min3 (cell a b i j + cost a b (S i) (S j))
                 (cell a b (S i) j + 1) (cell a b i (S j) + 1)).
    change (cell b a (S j) (S i))
      with (min3 (cell b a j i + cost b a (S j) (S i))
                 (cell b a (S j) i + 1) (cell b a j (S i) + 1)).
    rewrite IHj, !IHi, (cost_sym a b). apply min3_swap.
Qed.

(** C9. The Levenshtein distance is symmetric: for all strings [a] and
    [b], [levenshteinDistance a b] equals [levenshteinDistance b a]. *)
Theorem levenshteinDistance_symmetric (a b : jsstring) :
  levenshteinDistance a b = levenshteinDistance b a.
Proof. rewrite !levenshteinDistance_cell. apply cell_transpose. Qed.


(** ** Rational arithmetic of the confidence *)

Lemma Qgtb_lt (x y : Q) : Qgtb x y = true <-> (y < x)%Q.
Proof.
  unfold Qgtb. rewrite negb_true_iff. split.
  - intros H. apply Qnot_le_lt. intros Hle.
    apply Qle_bool_iff in Hle. congruence.
  - intros H. destruct (Qle_bool x y) eqn:E; [| done].
    apply Qle_bool_iff in E. exfalso. by apply (Qlt_not_le _ _ H).
Qed.

Lemma Qnat_nonneg (n : nat) : (0 <= Qnat n)%Q.
Proof. unfold Qnat, Qle. simpl. lia. Qed.

Lemma Qnat_pos (n : nat) : 0 < n -> (0 < Qnat n)%Q.
Proof. intros H. unfold Qnat, Qlt. simpl. lia. Qed.

Lemma Qnat_le (n m : nat) : n <= m -> (Qnat n <= Qnat m)%Q.
Proof. intros H. unfold Qnat, Qle. simpl. lia. Qed.

Lemma ratio_nonneg (n m : nat) : 0 < m -> (0 <= Qnat n / Qnat m)%Q.
Proof.
  intros Hm. apply Qle_shift_div_l; [by apply Qnat_pos |].
  rewrite Qmult_0_l. apply Qnat_nonneg.
Qed.

Lemma ratio_le (n n' m : nat) :
  0 < m -> n <= n' -> (Qnat n / Qnat m <= Qnat n' / Qnat m)%Q.
Proof.
  intros Hm Hn. unfold Qdiv. apply Qmult_le_compat_r; [by apply Qnat_le |].
  apply Qinv_le_0_compat, Qnat_nonneg.
Qed.

Lemma confidence_of_range (d : dist) (m : nat) :
  (0 <= confidence_of d m <= 1)%Q.
Proof.
  unfold confidence_of. destruct (Nat.ltb_spec 0 m) as [Hm | Hm]; [| done].
  destruct d as [n |]; [| done]. split.
  - apply Q.le_max_l.
  - apply Q.max_lub; [done |].
    pose proof (ratio_nonneg n m Hm) as Hr.
    apply Qle_minus_iff. ring_simplify. exact Hr.
Qed.

Lemma confidence_of_antitone (d d' : dist) (m : nat) :
  dist_le d d' -> (confidence_of d' m <= confidence_of d m)%Q.
Proof.
  intros Hd. unfold confidence_of.
  destruct (Nat.ltb_spec 0 m) as [Hm | Hm]; [| done].
  destruct d as [n |], d' as [n' |]; simpl in Hd; try done.
  - apply Q.max_le_compat_l.
    pose proof (ratio_le n n' m Hm Hd) as Hr.
    unfold Qminus. apply Qplus_le_r, Qopp_le_compat. exact Hr.
  - apply Q.le_max_l.
Qed.

Lemma confidence_of_zero (m : nat) : 0 < m -> (confidence_of (Fin 0) m == 1)%Q.
Proof.
  intros Hm. unfold confidence_of.
  destruct (Nat.ltb_spec 0 m) as [_ | ?]; [| lia].
  assert (H : (1 - Qnat 0 / Qnat m == 1)%Q).
  { unfold Qdiv. change (Qnat 0) with 0%Q. ring. }
  rewrite H. apply Q.max_r. done.
Qed.

(** ** Substrings *)

Lemma starts_with_app (w s : jsstring) : starts_with w (w ++ s) = true.
Proof.
  induction w as [|c w IH]; [done |].
  simpl. unfold char_eqb. by rewrite Ascii.eqb_refl.
Qed.

Lemma starts_with_inv (w s : jsstring) :
  starts_with w s = true -> exists post, s = w ++ post.
Proof.
  revert s. induction w as [|c w IH]; intros s H; [by exists s |].
  destruct s as [|d s]; [done |]. simpl in H.
  apply andb_true_iff in H as [Hc Hw].
  apply Ascii.eqb_eq in Hc as ->.
  destruct (IH _ Hw) as [post ->]. by exists post.
Qed.

Lemma includes_nil (s : jsstring) : includes s [] = true.
Proof. by destruct s. Qed.

Lemma includes_here (s w : jsstring) :
  starts_with w s = true -> includes s w = true.
Proof. intros H. destruct s; simpl; by rewrite H. Qed.

Lemma includes_app (pre w post : jsstring) : includes (pre ++ w ++ post) w = true.
Proof.
  induction pre as [|c pre IH].
  - simpl. apply includes_here, starts_with_app.
  - simpl. rewrite IH. apply orb_true_r.
Qed.

(** [includes] is the substring relation. *)
Lemma includes_spec (s w : jsstring) :
  includes s w = true <-> exists pre post, s = pre ++ w ++ post.
Proof.
  split.
  - induction s as [|c s IH]; simpl; intros H.
    + rewrite orb_false_r in H. apply starts_with_inv in H as [post ->].
      by exists [], post.
    + apply orb_true_iff in H as [H | H].
      * apply starts_with_inv in H as [post ->]. by exists [], post.
      * destruct (IH H) as (pre & post & ->). by exists (c :: pre), post.
  - intros (pre & post & ->). apply includes_app.
Qed.

(** ** The fuzzy verifier *)

Lemma findBestMatch_exact (expected text0 : jsstring) :
  includes text0 expected = true ->
  findBestMatch expected text0 = BestMatch (Fin 0) (Some expected) 1.
Proof. intros H. unfold findBestMatch. by rewrite H. Qed.

Lemma findBestMatch_scan (expected text0 : jsstring) :
  includes text0 expected = false ->
  let m := findBestMatch expected text0 in
  expected <> [] /\
  bm_confidence m = confidence_of (bm_distance m) (norm_length expected m).
Proof.
  intros H. unfold findBestMatch. rewrite H. simpl. split; [| done].
  intros ->. by rewrite includes_nil in H.
Qed.

Lemma findBestMatch_range (expected text0 : jsstring) :
  (0 <= bm_confidence (findBestMatch expected text0) <= 1)%Q.
Proof.
  unfold findBestMatch. destruct (includes text0 expected); simpl.
  - done.
  - apply confidence_of_range.
Qed.

Lemma verifyText_entries (extractedText : jsstring)
    (fields : list (jsstring * jsstring)) :
  extractedText <> [] ->
  verifyText extractedText fields =
  Ok (map (verify_entry (toLowerCase extractedText))
          (filter (fun e => snd e <> []) fields)).
Proof.
  intros Hne. unfold verifyText.
  destruct extractedText as [|c s]; [done |]. f_equal.
  set (text0 := toLowerCase (c :: s)).
  set (entries := filter _ fields).
  rewrite <- (take_ge entries (length entries)) at 2 by lia.
  apply (for_range_ind
           (fun i acc => acc = map (verify_entry text0) (take i entries)));
    [lia | done |].
  intros i acc Hi ->.
  destruct (lookup_lt_is_Some_2 entries i) as [e He]; [lia |].
  rewrite (list_lookup_total_correct _ _ _ He), (take_S_r _ _ _ He), map_app.
  by destruct e.
Qed.

(** C1. For every extracted text and every field whose expected value is
    not empty, the result [verifyText] produces for that field has a
    confidence in [0,1], and its [found] flag is true if and only if the
    confidence is strictly greater than 0.7. *)
Theorem verifyText_confidence_threshold (extractedText : jsstring)
    (fields : list (jsstring * jsstring)) :
  extractedText <> [] ->
  exists results,
    verifyText extractedText fields = Ok results /\
    (forall fieldName value,
        (fieldName, value) ∈ fields -> value <> [] ->
        exists r, r ∈ results /\ field r = fieldName /\ input r = value) /\
    Forall (fun r => (0 <= confidence r <= 1)%Q /\
                     (found r = true <-> (7 # 10 < confidence r)%Q)) results.
Proof.
  intros Hne. eexists. split; [by apply verifyText_entries |]. split.
  - intros fieldName value Hin Hv.
    exists (verify_entry (toLowerCase extractedText) (fieldName, value)).
    split; [| done].
    apply list_elem_of_fmap_2, list_elem_of_filter. done.
  - apply Forall_fmap, Forall_forall. intros e _. simpl. split.
    + apply findBestMatch_range.
    + apply Qgtb_lt.
Qed.

Lemma verifyText_confidence_threshold_witness :
  exists results,
    verifyText (js "Old Tom 750 ml") [(js "netContents", js "750 ML")] = Ok results /\
    (forall fieldName value,
        (fieldName, value) ∈ [(js "netContents", js "750 ML")] -> value <> [] ->
        exists r, r ∈ results /\ field r = fieldName /\ input r = value) /\
    Forall (fun r => (0 <= confidence r <= 1)%Q /\
                     (found r = true <-> (7 # 10 < confidence r)%Q)) results.
Proof. apply verifyText_confidence_threshold. discriminate. Defined.

(** C2. For every sequence of fields and every non-empty extracted text,
    [verifyText] returns exactly one result for each field whose expected
    value is not empty and none for a field whose value is empty, in the
    order of the fields. *)
Theorem verifyText_one_result_per_filled_field (extractedText : jsstring)
    (fields : list (jsstring * jsstring)) :
  extractedText <> [] ->
  exists results,
    verifyText extractedText fields = Ok results /\
    map (fun r => (field r, input r)) results =
      filter (fun e => snd e <> []) fields /\
    length results = length (filter (fun e => snd e <> []) fields) /\
    Forall (fun r => input r <> []) results.
Proof.
  intros Hne. eexists. split; [by apply verifyText_entries |].
  set (entries := filter _ fields).
  assert (Hall : Forall (fun e : jsstring * jsstring => snd e <> []) entries).
  { apply Forall_forall. intros e He. by apply list_elem_of_filter in He as [? _]. }
  clearbody entries. split; [| split].
  - induction entries as [|[n v] l IH]; [done |].
    simpl. f_equal. apply IH. by apply Forall_inv_tail in Hall.
  - apply length_map.
  - apply Forall_fmap. eapply Forall_impl; [exact Hall | done].
Qed.

Lemma verifyText_one_result_per_filled_field_witness :
  exists results,
    verifyText (js "ACME vodka 40%")
      [(js "brandName", js "ACME"); (js "productClass", js "");
       (js "alcoholContent", js "40%")] = Ok results /\
    map (fun r => (field r, input r)) results =
      [(js "brandName", js "ACME"); (js "alcoholContent", js "40%")] /\
    length results = 2 /\
    Forall (fun r => input r <> []) results.
Proof.
  apply (verifyText_one_result_per_filled_field (js "ACME vodka 40%")
           [(js "brandName", js "ACME"); (js "productClass", js "");
            (js "alcoholContent", js "40%")]).
  discriminate.
Defined.

Lemma toLowerCase_app (s t : jsstring) :
  toLowerCase (s ++ t) = toLowerCase s ++ toLowerCase t.
Proof. apply map_app. Qed.

Lemma toLowerCase_nil_inv (s : jsstring) : toLowerCase s = [] -> s = [].
Proof. by destruct s. Qed.

(** C3. If the text contains the expected value verbatim, [findBestMatch]
    returns distance 0 and confidence 1; hence, [verifyText] lower-casing
    both sides, a field whose value occurs in the text up to letter case
    is reported found with confidence 1. *)
Theorem exact_containment_full_confidence :
  (forall expected pre post : jsstring,
      findBestMatch expected (pre ++ expected ++ post) =
      BestMatch (Fin 0) (Some expected) 1) /\
  (forall (fields : list (jsstring * jsstring)) (fieldName value w pre post : jsstring),
      value <> [] ->
      toLowerCase w = toLowerCase value ->
      (fieldName, value) ∈ fields ->
      exists results,
        verifyText (pre ++ w ++ post) fields = Ok results /\
        Result fieldName value true 1 (Some (toLowerCase value)) ∈ results).
Proof.
  split.
  - intros expected pre post. apply findBestMatch_exact, includes_app.
  - intros fields fieldName value w pre post Hv Hw Hin.
    assert (Hne : pre ++ w ++ post <> []).
    { intros H. apply app_eq_nil in H as [_ H]. apply app_eq_nil in H as [-> _].
      symmetry in Hw. by apply toLowerCase_nil_inv in Hw. }
    eexists. split; [by apply verifyText_entries |].
    apply list_elem_of_fmap. exists (fieldName, value). split.
    + unfold verify_entry. simpl.
      rewrite !toLowerCase_app, Hw, findBestMatch_exact by apply includes_app.
      done.
    + by apply list_elem_of_filter.
Qed.

Lemma exact_containment_full_confidence_witness :
  exists results,
    verifyText (js "Net Contents: " ++ js "750 ml" ++ js " bottle")
               [(js "netContents", js "750 ML")] = Ok results /\
    Result (js "netContents") (js "750 ML") true 1 (Some (js "750 ml")) ∈ results.
Proof.
  apply (proj2 exact_containment_full_confidence
           [(js "netContents", js "750 ML")]
           (js "netContents") (js "750 ML") (js "750 ml")).
  - discriminate.
  - reflexivity.
  - apply list_elem_of_here.
Defined.

(** C5, as stated, fails: a distance of 2 on a value of two code units
    gives confidence 0, a distance of 3 on a value of ten gives 0.7. *)
Lemma confidence_not_monotone_across_lengths :
  ~ (forall e1 t1 e2 t2 d1 d2,
        bm_distance (findBestMatch e1 t1) = Fin d1 ->
        bm_distance (findBestMatch e2 t2) = Fin d2 ->
        d1 < d2 ->
        (bm_confidence (findBestMatch e2 t2) <=
         bm_confidence (findBestMatch e1 t1))%Q).
Proof.
  intros H.
  assert (H1 : bm_distance (findBestMatch (js "ab") (js "xy")) = Fin 2)
    by (vm_compute; reflexivity).
  assert (H2 : bm_distance (findBestMatch (js "abcdefghij") (js "abcdefgxyz")) = Fin 3)
    by (vm_compute; reflexivity).
  assert (Hlt : 2 < 3) by lia.
  pose proof (H _ _ _ _ _ _ H1 H2 Hlt) as Hq.
  apply Qle_bool_iff in Hq. vm_compute in Hq. discriminate.
Qed.

(** C5, amended. Among inputs with the same normalising length
    [max(len(expected), len(matchedText))], the confidence is monotonic in
    the edit distance: a distance that is not higher never gives a lower
    confidence. *)
Theorem confidence_monotone_at_equal_length (e1 t1 e2 t2 : jsstring) :
  norm_length e1 (findBestMatch e1 t1) = norm_length e2 (findBestMatch e2 t2) ->
  dist_le (bm_distance (findBestMatch e1 t1)) (bm_distance (findBestMatch e2 t2)) ->
  (bm_confidence (findBestMatch e2 t2) <= bm_confidence (findBestMatch e1 t1))%Q.
Proof.
  intros Hlen Hd.
  destruct (includes t1 e1) eqn:I1.
  { rewrite (findBestMatch_exact e1 t1 I1). simpl. apply findBestMatch_range. }
  destruct (findBestMatch_scan e1 t1 I1) as [Hne1 Hc1].
  rewrite Hc1.
  destruct (includes t2 e2) eqn:I2.
  - rewrite (findBestMatch_exact e2 t2 I2) in Hd |- *. simpl in *.
    destruct (bm_distance (findBestMatch e1 t1)) as [n |]; [| done].
    simpl in Hd. assert (n = 0) as -> by lia.
    rewrite confidence_of_zero; [done |].
    unfold norm_length. destruct e1; [done | simpl; lia].
  - destruct (findBestMatch_scan e2 t2 I2) as [_ Hc2].
    rewrite Hc2, <- Hlen. by apply confidence_of_antitone.
Qed.

Lemma confidence_monotone_at_equal_length_witness :
  (bm_confidence (findBestMatch (js "brand") (js "grand old bland")) <=
   bm_confidence (findBestMatch (js "brand") (js "a brxnd")))%Q.
Proof.
  apply confidence_monotone_at_equal_length.
  - vm_compute. reflexivity.
  - vm_compute. lia.
Defined.

(** ** The OCR wrapper *)

Lemma run_prefix cfgs log : run cfgs log -> map fst log `prefix_of` cfgs.
Proof.
  induction 1 as [| cfg rest r _ | cfg rest r log _ _ IH]; simpl.
  - done.
  - apply prefix_cons, prefix_nil.
  - by apply prefix_cons.
Qed.

(** Nothing is called after a call that ends the loop. *)
Lemma run_last cfgs log l1 e l2 :
  run cfgs log -> log = l1 ++ e :: l2 -> ends_loop (snd e) = true -> l2 = [].
Proof.
  intros Hrun. revert l1.
  induction Hrun as [| cfg rest r Hr | cfg rest r log Hr _ IH]; intros l1 Heq He.
  - by destruct l1.
  - destruct l1 as [|? l1]; simpl in Heq; [by simplify_eq |].
    injection Heq as _ Heq. by destruct l1.
  - destruct l1 as [|e' l1]; simpl in Heq; simplify_eq; simpl in *.
    + congruence.
    + by eapply IH.
Qed.

(** A call that does not end the loop is followed by a call on the next
    configuration, as long as there is one. *)
Lemma run_continues cfgs log l1 e l2 :
  run cfgs log -> log = l1 ++ e :: l2 -> ends_loop (snd e) = false ->
  S (length l1) < length cfgs -> l2 <> [].
Proof.
  intros Hrun. revert l1.
  induction Hrun as [| cfg rest r Hr | cfg rest r log Hr Hrun IH];
    intros l1 Heq He Hlen.
  - by destruct l1.
  - destruct l1 as [|? l1]; simpl in Heq.
    + simplify_eq. simpl in *. congruence.
    + injection Heq as _ Heq. by destruct l1.
  - destruct l1 as [|e' l1]; simpl in Heq; simplify_eq; simpl in *.
    + inversion Hrun; simplify_eq; simpl in *; [lia | done..].
    + eapply IH; [done.. | lia].
Qed.

(** If every call fails, every configuration is called. *)
Lemma run_all_failed cfgs log :
  run cfgs log -> Forall (fun e => snd e = Failed) log -> map fst log = cfgs.
Proof.
  induction 1 as [| cfg rest r Hr | cfg rest r log Hr _ IH]; intros Hall.
  - done.
  - apply Forall_inv in Hall. simpl in Hall. by subst r.
  - simpl. f_equal. apply IH. by apply Forall_inv_tail in Hall.
Qed.

Section ProcessImageProperties.

Variable world : Type.
Variable recognize : world -> config -> recognition * world.
Variable score_above : Q -> nat -> Q -> nat -> bool.

Local Abbreviation attempt' := (attempt world recognize score_above).
Local Abbreviation state := (loop_state world).

Lemma better_cases confidence0 normalizedText (best : option ocr_result) :
  better score_above confidence0 normalizedText best =
    Some (OcrResult normalizedText confidence0) \/
  (better score_above confidence0 normalizedText best = best /\ best <> None).
Proof.
  unfold better. destruct best as [b |]; [| by left].
  destruct score_above; [by left | by right].
Qed.

(** The loop: the calls it adds have the shape [run]; [bestResult] stays
    [null] exactly when it was [null] and every call failed; a result it
    sets comes from one of the calls. *)
Lemma attempt_spec (cfgs : list config) :
  forall st : state,
  exists log,
    calls (attempt' cfgs st) = calls st ++ log /\
    run cfgs log /\
    (bestResult (attempt' cfgs st) = None <->
     bestResult st = None /\ Forall (fun e => snd e = Failed) log) /\
    (forall b, bestResult (attempt' cfgs st) = Some b ->
               bestResult st = Some b \/ recognised_in log b).
Proof.
  induction cfgs as [|cfg rest IH]; intros st.
  { exists []. simpl. rewrite app_nil_r.
    split; [done |]. split; [constructor |]. split.
    - split; [intros H; by split | by intros [? _]].
    - intros b Hb. by left. }
  simpl. destruct (recognize (ls_world st) cfg) as [r w].
  destruct r as [text0 confidence0 |].
  - set (best := better score_above confidence0 (normalizeText text0) (bestResult st)).
    assert (Hbest : best <> None /\
              forall b, best = Some b ->
                bestResult st = Some b \/
                b = OcrResult (normalizeText text0) confidence0).
    { destruct (better_cases confidence0 (normalizeText text0) (bestResult st))
        as [H | [H Hn]]; fold best in H; rewrite H.
      - split; [done |]. intros b [= <-]. by right.
      - split; [done |]. intros b Hb. by left. }
    destruct Hbest as [Hsome Hfrom].
    destruct (good_enough confidence0 (normalizeText text0)) eqn:Hgood.
    + exists [(cfg, Recognized text0 confidence0)]. simpl.
      split; [done |]. split; [by constructor |]. split.
      * split; [done |]. intros [_ Hall]. by apply Forall_inv in Hall.
      * intros b Hb. destruct (Hfrom b Hb) as [? | ->]; [by left | right].
        exists cfg, text0, confidence0. split; [apply list_elem_of_here | done].
    + destruct (IH (LoopState w best
                      (calls st ++ [(cfg, Recognized text0 confidence0)])))
        as (log & Hcalls & Hrun & Hnone & Hsome').
      exists ((cfg, Recognized text0 confidence0) :: log).
      split; [by rewrite Hcalls; simpl; rewrite <- app_assoc |].
      split; [by constructor |]. split.
      * rewrite Hnone. simpl. split; [tauto |].
        intros [_ Hall]. by apply Forall_inv in Hall.
      * intros b Hb. destruct (Hsome' b Hb) as [Hb' | (c & t & q & Hin & ->)].
        -- simpl in Hb'. destruct (Hfrom b Hb') as [? | ->]; [by left | right].
           exists cfg, text0, confidence0. split; [apply list_elem_of_here | done].
        -- right. exists c, t, q. split; [by apply list_elem_of_further | done].
  - destruct (IH (LoopState w (bestResult st) (calls st ++ [(cfg, Failed)])))
      as (log & Hcalls & Hrun & Hnone & Hsome').
    exists ((cfg, Failed) :: log).
    split; [by rewrite Hcalls; simpl; rewrite <- app_assoc |].
    split; [by constructor |]. split.
    + rewrite Hnone. simpl. split.
      * intros [? ?]. split; [done |]. by constructor.
      * intros [? Hall]. split; [done |]. by apply Forall_inv_tail in Hall.
    + intros b Hb. destruct (Hsome' b Hb) as [Hb' | (c & t & q & Hin & ->)].
      * by left.
      * right. exists c, t, q. split; [by apply list_elem_of_further | done].
Qed.

(** What [processImage] returns and the calls it makes. *)
Lemma processImage_with_spec (cfgs : list config) (w : world) :
  let res := fst (processImage_with world recognize score_above cfgs w) in
  let log := snd (processImage_with world recognize score_above cfgs w) in
  run cfgs log /\
  (res = Throw "All OCR attempts failed" <->
   Forall (fun e => snd e = Failed) log) /\
  (forall msg, res = Throw msg -> msg = "All OCR attempts failed"%string) /\
  (forall b, res = Ok b -> recognised_in log b).
Proof.
  unfold processImage_with, finish. cbn [fst snd].
  destruct (attempt_spec cfgs (LoopState w None []))
    as (log & Hcalls & Hrun & Hnone & Hsome).
  cbn [calls bestResult app] in Hcalls, Hnone, Hsome. rewrite Hcalls.
  split; [done |].
  destruct (bestResult (attempt' cfgs _)) as [b |] eqn:Hb.
  - split; [| split].
    + split; [done |]. intros Hall.
      assert (Some b = None) by (apply Hnone; done). done.
    + done.
    + intros b' [= <-]. destruct (Hsome b eq_refl) as [? | ?]; done.
  - split; [| split].
    + split; [| done]. intros _. by apply Hnone.
    + by intros msg [= <-].
    + done.
Qed.

Lemma good_enough_spec (confidence0 : Q) (normalizedText : jsstring) :
  good_enough confidence0 normalizedText = true <->
  (80 < confidence0)%Q /\ 50 < length normalizedText.
Proof.
  unfold good_enough. rewrite andb_true_iff, Qgtb_lt, Nat.ltb_lt. done.
Qed.

(** C6. As soon as a call yields a confidence above 80 and a normalised
    text longer than 50, [processImage] calls no further configuration;
    in particular, if the first configuration does, the recognition
    dependency is called exactly once. *)
Theorem processImage_early_exit (w : world) :
  let log := snd (processImage world recognize score_above w) in
  map fst log `prefix_of` ocrConfigs /\
  (forall l1 cfg text0 confidence0 l2,
      log = l1 ++ (cfg, Recognized text0 confidence0) :: l2 ->
      (80 < confidence0)%Q -> 50 < length (normalizeText text0) ->
      l2 = []) /\
  (forall text0 confidence0 w',
      recognize w (Config "Sparse Text" 11 1 "1") =
        (Recognized text0 confidence0, w') ->
      (80 < confidence0)%Q -> 50 < length (normalizeText text0) ->
      log = [(Config "Sparse Text" 11 1 "1", Recognized text0 confidence0)] /\
      length log = 1).
Proof.
  destruct (processImage_with_spec ocrConfigs w) as (Hrun & _).
  split; [by apply run_prefix |]. split.
  - intros l1 cfg text0 confidence0 l2 Hlog Hc Hl.
    eapply run_last; [exact Hrun | exact Hlog |].
    simpl. by apply good_enough_spec.
  - intros text0 confidence0 w' Hrec Hc Hl.
    assert (Hgood : good_enough confidence0 (normalizeText text0) = true)
      by by apply good_enough_spec.
    unfold processImage, processImage_with, ocrConfigs.
    cbn [attempt ls_world]. rewrite Hrec, Hgood. done.
Qed.

(** C7. An error thrown by one configuration is caught and the loop goes
    on with the remaining configurations; [processImage] fails, with
    "All OCR attempts failed", exactly when every configuration failed,
    and a result it returns is what one successful call recognised. *)
Theorem processImage_fails_iff_all_fail (w : world) :
  let res := fst (processImage world recognize score_above w) in
  let log := snd (processImage world recognize score_above w) in
  (forall l1 cfg l2,
      log = l1 ++ (cfg, Failed) :: l2 ->
      S (length l1) < length ocrConfigs -> l2 <> []) /\
  (res = Throw "All OCR attempts failed" <->
   map fst log = ocrConfigs /\ Forall (fun e => snd e = Failed) log) /\
  (forall msg, res = Throw msg -> msg = "All OCR attempts failed"%string) /\
  (forall b, res = Ok b ->
      exists cfg text0 confidence0,
        (cfg, Recognized text0 confidence0) ∈ log /\
        b = OcrResult (normalizeText text0) confidence0).
Proof.
  destruct (processImage_with_spec ocrConfigs w) as (Hrun & Hthrow & Hmsg & Hok).
  split; [| split; [| split]].
  - intros l1 cfg l2 Hlog Hlen.
    by eapply run_continues; [exact Hrun | exact Hlog | |].
  - unfold processImage. rewrite Hthrow. split.
    + intros Hall. split; [| done]. by apply run_all_failed.
    + by intros [_ Hall].
  - exact Hmsg.
  - exact Hok.
Qed.

End ProcessImageProperties.

Lemma processImage_early_exit_witness :
  snd (processImage nat steady_recognizer sample_score 0) =
    [(Config "Sparse Text" 11 1 "1", Recognized sample_text 91)] /\
  length (snd (processImage nat steady_recognizer sample_score 0)) = 1.
Proof.
  apply (proj2 (proj2 (processImage_early_exit nat steady_recognizer sample_score 0))
           sample_text 91%Q 1).
  - reflexivity.
  - reflexivity.
  - vm_compute. lia.
Defined.

Lemma processImage_fails_iff_all_fail_witness :
  fst (processImage nat broken_recognizer sample_score 0) =
    Throw "All OCR attempts failed".
Proof.
  apply (proj1 (proj2 (processImage_fails_iff_all_fail nat broken_recognizer
                         sample_score 0))).
  split.
  - reflexivity.
  - vm_compute. repeat constructor.
Defined.


(** ** The regular-expression matcher *)

Lemma try_down_below {A : Type} (k : nat -> option A) (lo n : nat) :
  n < lo -> try_down k lo n = None.
Proof.
  intros H. apply Nat.ltb_lt in H. destruct n; cbn [try_down]; by rewrite H.
Qed.

Lemma try_down_exact {A : Type} (k : nat -> option A) (n : nat) :
  0 < n -> try_down k n n = k n.
Proof.
  intros H. destruct n as [|n]; [lia |]. cbn [try_down].
  rewrite Nat.ltb_irrefl. destruct (k (S n)); [done |].
  apply try_down_below. lia.
Qed.

Lemma try_down_first {A : Type} (k : nat -> option A) (lo n : nat) (r : A) :
  lo <= n -> k n = Some r -> try_down k lo n = Some r.
Proof.
  intros Hle Hk. apply Nat.ltb_ge in Hle.
  destruct n; cbn [try_down]; by rewrite Hle, Hk.
Qed.

(** One code unit of a set, not captured. *)
Lemma match_here_one (ic : bool) (cs : cset) (pat : list atom)
    (caps : list jsstring) (s : jsstring) :
  match_here ic (one cs :: pat) caps s =
  match s with
  | [] => None
  | c :: s' =>
      if cset_matches ic cs c then advance 1 (match_here ic pat caps s') else None
  end.
Proof.
  unfold one. cbn [match_here]. destruct s as [|c s']; [done |].
  cbn [span]. destruct (cset_matches ic cs c); [| done].
  cbn [at_most]. rewrite Nat.min_l by lia. by rewrite try_down_exact by lia.
Qed.

(** One code unit of a set, captured. *)
Lemma match_here_group (ic : bool) (cs : cset) (pat : list atom)
    (caps : list jsstring) (s : jsstring) :
  match_here ic (group cs :: pat) caps s =
  match s with
  | [] => None
  | c :: s' =>
      if cset_matches ic cs c
      then advance 1 (match_here ic pat (caps ++ [[c]]) s')
      else None
  end.
Proof.
  unfold group. cbn [match_here]. destruct s as [|c s']; [done |].
  cbn [span]. destruct (cset_matches ic cs c); [| done].
  cbn [at_most]. rewrite Nat.min_l by lia. by rewrite try_down_exact by lia.
Qed.

(** After a match the scan resumes behind it. *)
Lemma replace_from_skip (re : regex) (tmpl : list piece) (s : jsstring) :
  forall n, n <= length s ->
    replace_from re tmpl n s = replace_from re tmpl 0 (drop n s).
Proof.
  induction s as [|c s IH]; intros n Hn.
  - simpl in Hn. by assert (n = 0) as -> by lia.
  - destruct n as [|n]; [done |]. simpl in Hn. cbn [replace_from drop].
    apply IH. lia.
Qed.

(** *** Rules that rewrite a pair of code units *)

Section PairRule.

Variables (first second : cset) (w : jsstring).

Local Abbreviation re := (Regex [one first; one second] true).

Lemma pair_match (s : jsstring) :
  match_here true [one first; one second] [] s =
  match s with
  | a :: b :: _ =>
      if cset_matches true first a && cset_matches true second b
      then Some ([], 2) else None
  | _ => None
  end.
Proof.
  rewrite match_here_one. destruct s as [|a s]; [done |].
  rewrite match_here_one.
  destruct (cset_matches true first a); [| by destruct s].
  destruct s as [|b s]; [done |]. simpl.
  by destruct (cset_matches true second b).
Qed.

Lemma pair_replace_nil : replace re [Lit w] [] = [].
Proof. done. Qed.

Lemma pair_replace_single (a : ascii) : replace re [Lit w] [a] = [a].
Proof.
  unfold replace. cbn [replace_from]. cbn [atoms icase].
  by rewrite !pair_match.
Qed.

Lemma pair_replace_cons2 (a b : ascii) (s : jsstring) :
  replace re [Lit w] (a :: b :: s) =
  if cset_matches true first a && cset_matches true second b
  then w ++ replace re [Lit w] s
  else a :: replace re [Lit w] (b :: s).
Proof.
  unfold replace. cbn [replace_from]. cbn [atoms icase].
  rewrite pair_match.
  destruct (cset_matches true first a && cset_matches true second b); [| done].
  unfold expand. simpl. by rewrite app_nil_r.
Qed.

(** An occurrence of the pair is rewritten wherever it stands, provided
    its first code unit cannot be the second of another occurrence. *)
Lemma pair_replace_anywhere (a b : ascii) :
  cset_matches true first a = true ->
  cset_matches true second b = true ->
  cset_matches true second a = false ->
  forall u v,
    replace re [Lit w] (u ++ a :: b :: v) =
    replace re [Lit w] u ++ w ++ replace re [Lit w] v.
Proof.
  intros Ha Hb Hab u v.
  remember (length u) as n eqn:Hn.
  revert u Hn. induction (lt_wf n) as [n _ IH]. intros u ->.
  destruct u as [|x [|y u]].
  - simpl. by rewrite pair_replace_cons2, Ha, Hb.
  - simpl. rewrite pair_replace_cons2, Hab, andb_false_r.
    rewrite pair_replace_cons2, Ha, Hb. by rewrite pair_replace_single.
  - change ((x :: y :: u) ++ a :: b :: v) with (x :: y :: (u ++ a :: b :: v)).
    rewrite !pair_replace_cons2.
    destruct (cset_matches true first x && cset_matches true second y).
    + rewrite (IH (length u)); [by rewrite app_assoc | simpl; lia | done].
    + change (y :: u ++ a :: b :: v) with ((y :: u) ++ a :: b :: v).
      rewrite (IH (length (y :: u))); [done | simpl; lia | done].
Qed.

End PairRule.

(** ** The normaliser on the scenarios of the specification *)

(** C4, as stated, fails: the normalised text contains neither "WHISKY"
    nor "40%". *)
Lemma normalizeText_scenario_C_fails :
  ~ (includes (normalizeText (js "WHI5KY 4O o/o")) (js "WHISKY") = true /\
     includes (normalizeText (js "WHI5KY 4O o/o")) (js "40%") = true).
Proof. vm_compute. intros [H _]. discriminate. Qed.

(** C4, amended. "WHI5KY 4O o/o" normalises to "whisky 4O o/o": the word
    is repaired, in lower case, and the letter O after the 4 is left, so
    that no percent sign is produced; with the digit zero, "WHI5KY 40 o/o"
    normalises to "whisky 40%". *)
Theorem normalizeText_scenario_C :
  normalizeText (js "WHI5KY 4O o/o") = js "whisky 4O o/o" /\
  includes (normalizeText (js "WHI5KY 4O o/o")) (js "whisky") = true /\
  includes (normalizeText (js "WHI5KY 4O o/o")) (js "WHISKY") = false /\
  includes (normalizeText (js "WHI5KY 4O o/o")) (js "40%") = false /\
  normalizeText (js "WHI5KY 40 o/o") = js "whisky 40%".
Proof. vm_compute. repeat split. Qed.

(** C10. The volume-unit rules rewrite every "m" followed by "l", "i" or
    "1", and every "o" or "0" followed by "z", in either case and wherever
    it stands, to lower-case "ml" and "oz"; so a correctly spelled word is
    changed: "PREMIUM" becomes "PREmlUM". *)
Theorem volume_unit_rules_rewrite_inside_words :
  (forall (u v : jsstring) (a b : ascii),
      In a (js "mM") -> In b (js "lLiI1") ->
      fix_ml (u ++ a :: b :: v) = fix_ml u ++ js "ml" ++ fix_ml v) /\
  (forall (u v : jsstring) (a b : ascii),
      In a (js "oO0") -> In b (js "zZ") ->
      fix_oz (u ++ a :: b :: v) = fix_oz u ++ js "oz" ++ fix_oz v) /\
  normalizeText (js "PREMIUM") = js "PREmlUM" /\
  normalizeText (js "PREMIUM") <> js "PREMIUM".
Proof.
  split; [| split; [| split]].
  - intros u v a b Ha Hb.
    apply (pair_replace_anywhere (Chr "m") (any_of "li1") (js "ml"));
      simpl in Ha, Hb; intuition (subst; reflexivity).
  - intros u v a b Ha Hb.
    apply (pair_replace_anywhere (any_of "o0") (Chr "z") (js "oz"));
      simpl in Ha, Hb; intuition (subst; reflexivity).
  - vm_compute. reflexivity.
  - vm_compute. discriminate.
Qed.

Lemma volume_unit_rules_rewrite_inside_words_witness :
  fix_ml (js "PRE" ++ "M"%char :: "I"%char :: js "UM") =
  fix_ml (js "PRE") ++ js "ml" ++ fix_ml (js "UM").
Proof.
  apply (proj1 volume_unit_rules_rewrite_inside_words).
  - simpl. tauto.
  - simpl. tauto.
Defined.

(** ** Whitespace collapse *)

Lemma length_ind (P : jsstring -> Prop) :
  (forall s, (forall t, length t < length s -> P t) -> P s) -> forall s, P s.
Proof.
  intros H s. remember (length s) as n eqn:Hn. revert s Hn.
  induction (lt_wf n) as [n _ IH]. intros s ->.
  apply H. intros t Ht. by apply (IH (length t)).
Qed.

Lemma span_ext (p q : ascii -> bool) (s : jsstring) :
  (forall c, p c = q c) -> span p s = span q s.
Proof. intros H. induction s as [|c s IH]; simpl; [done |]. by rewrite H, IH. Qed.

Lemma span_le_length (p : ascii -> bool) (s : jsstring) : span p s <= length s.
Proof. induction s as [|c s IH]; simpl; [lia |]. destruct (p c); simpl; lia. Qed.

Lemma drop_span (p : ascii -> bool) (s : jsstring) :
  drop (span p s) s = drop_while p s.
Proof. induction s as [|c s IH]; simpl; [done |]. by destruct (p c). Qed.

Lemma span_drop_while (p : ascii -> bool) (s : jsstring) :
  span p (drop_while p s) = 0.
Proof.
  induction s as [|c s IH]; simpl; [done |].
  destruct (p c) eqn:E; [done |]. simpl. by rewrite E.
Qed.

Lemma drop_while_length (p : ascii -> bool) (s : jsstring) :
  length (drop_while p s) <= length s.
Proof. rewrite <- drop_span, length_drop. lia. Qed.

Lemma no_lead_drop_while (s : jsstring) : no_lead (drop_while is_space s).
Proof.
  induction s as [|c s IH]; simpl; [done |].
  destruct (is_space c) eqn:E; [done |]. simpl. done.
Qed.

Lemma drop_while_no_lead (s : jsstring) : no_lead s -> drop_while is_space s = s.
Proof. destruct s as [|c s]; simpl; [done |]. by intros ->. Qed.

Lemma spaces_match (s : jsstring) :
  match_here false [Rep Space 1 None] [] s =
  if span is_space s =? 0 then None else Some ([], span is_space s + 0).
Proof.
  cbn [match_here at_most].
  rewrite (span_ext (cset_matches false Space) is_space) by done.
  destruct (Nat.eqb_spec (span is_space s) 0) as [-> | Hn].
  - apply try_down_below. lia.
  - apply try_down_first; [lia | done].
Qed.

Lemma replace_spaces_nil : replace re_spaces (plain " ") [] = [].
Proof. done. Qed.

Lemma replace_spaces_cons (c : ascii) (s : jsstring) :
  replace re_spaces (plain " ") (c :: s) =
  if is_space c
  then " "%char :: replace re_spaces (plain " ") (drop_while is_space s)
  else c :: replace re_spaces (plain " ") s.
Proof.
  unfold replace. cbn [replace_from]. cbn [re_spaces atoms icase].
  rewrite spaces_match. cbn [span].
  destruct (is_space c); [| done].
  cbn [Nat.eqb Nat.add]. rewrite Nat.add_0_r.
  rewrite replace_from_skip by apply span_le_length.
  by rewrite drop_span.
Qed.

Lemma replace_spaces_no_lead (s : jsstring) :
  no_lead s -> no_lead (replace re_spaces (plain " ") s).
Proof.
  destruct s as [|c s]; [done |]. simpl. intros Hc.
  by rewrite replace_spaces_cons, Hc.
Qed.

Lemma replace_spaces_single (s : jsstring) :
  single (replace re_spaces (plain " ") s).
Proof.
  induction s as [s IH] using length_ind.
  destruct s as [|c s]; [done |].
  rewrite replace_spaces_cons. destruct (is_space c) eqn:Hc.
  - split.
    + intros _. split; [done |].
      apply replace_spaces_no_lead, no_lead_drop_while.
    + apply IH. simpl. pose proof (drop_while_length is_space s). lia.
  - split; [congruence |]. apply IH. simpl. lia.
Qed.

Lemma replace_spaces_spaced (s : jsstring) :
  spaced s -> replace re_spaces (plain " ") s = s.
Proof.
  induction s as [|c s IH]; [done |]. intros [Hc Hs].
  rewrite replace_spaces_cons. destruct (is_space c) eqn:E.
  - destruct (Hc eq_refl) as (-> & _ & Hlead).
    rewrite (drop_while_no_lead s Hlead). by rewrite IH.
  - by rewrite IH.
Qed.

(** *** Trimming *)

Lemma trim_end_snoc (s : jsstring) (d : ascii) :
  reverse (drop_while is_space (reverse (s ++ [d]))) =
  if is_space d then reverse (drop_while is_space (reverse s)) else s ++ [d].
Proof.
  rewrite reverse_snoc. simpl. destruct (is_space d); [done |].
  by rewrite reverse_cons, reverse_involutive.
Qed.

Lemma single_app_l (s t : jsstring) : single (s ++ t) -> single s.
Proof.
  induction s as [|c s IH]; [done |]. simpl. intros [Hc Hs]. split; [| by apply IH].
  intros E. destruct (Hc E) as [-> Hl]. split; [done |]. by destruct s.
Qed.

Lemma single_drop_while (s : jsstring) : single s -> single (drop_while is_space s).
Proof.
  induction s as [|c s IH]; [done |]. intros [Hc Hs].
  cbn [drop_while]. destruct (is_space c) eqn:E; [by apply IH |].
  split; [congruence | exact Hs].
Qed.

Lemma single_snoc_spaced (s : jsstring) (d : ascii) :
  single (s ++ [d]) -> is_space d = false -> spaced (s ++ [d]).
Proof.
  intros Hs Hd. induction s as [|c s IH]; simpl.
  - split; [congruence | done].
  - destruct Hs as [Hc Hs]. split; [| by apply IH].
    intros E. destruct (Hc E) as [-> Hl]. split; [done |]. split; [| done].
    by destruct s.
Qed.

Lemma trim_end_tidy (s : jsstring) :
  single s -> no_lead s -> tidy (reverse (drop_while is_space (reverse s))).
Proof.
  induction s as [|d s IH] using rev_ind; [done |].
  intros Hs Hl. rewrite trim_end_snoc. destruct (is_space d) eqn:Hd.
  - apply IH; [by apply single_app_l in Hs |]. by destruct s.
  - split; [done |]. by apply single_snoc_spaced.
Qed.

Lemma spaced_ends (s : jsstring) :
  spaced s -> s = [] \/ exists s0 d, s = s0 ++ [d] /\ is_space d = false.
Proof.
  induction s as [|c s IH]; [by left |]. intros [Hc Hs]. right.
  destruct (IH Hs) as [-> | (s0 & d & -> & Hd)].
  - exists [], c. split; [done |].
    destruct (is_space c) eqn:E; [| done]. by destruct (Hc eq_refl) as (_ & ? & _).
  - by exists (c :: s0), d.
Qed.

Lemma trim_tidy (s : jsstring) : tidy s -> trim s = s.
Proof.
  intros [Hl Hs]. unfold trim. rewrite (drop_while_no_lead s Hl).
  destruct (spaced_ends s Hs) as [-> | (s0 & d & -> & Hd)]; [done |].
  by rewrite trim_end_snoc, Hd.
Qed.

(** The whitespace rule produces a tidy text and leaves a tidy text
    unchanged. *)
Lemma collapse_whitespace_tidy (s : jsstring) : tidy (collapse_whitespace s).
Proof.
  unfold collapse_whitespace, trim. apply trim_end_tidy.
  - apply single_drop_while, replace_spaces_single.
  - apply no_lead_drop_while.
Qed.

Lemma collapse_whitespace_fixed (s : jsstring) :
  tidy s -> collapse_whitespace s = s.
Proof.
  intros Ht. unfold collapse_whitespace.
  rewrite replace_spaces_spaced by apply Ht. by apply trim_tidy.
Qed.

(** ** Collapse of repeated code units *)

Lemma copies_span (c : ascii) (n : nat) :
  forall s, length s <= n -> copies n [c] s = span (char_eqb c) s.
Proof.
  induction n as [|n IH]; intros s Hs.
  - destruct s; [done | simpl in Hs; lia].
  - destruct s as [|d s]; [done |]. cbn [copies starts_with span].
    rewrite andb_true_r. destruct (char_eqb c d); [| done].
    simpl in Hs. change (drop (length [c]) (d :: s)) with s.
    rewrite IH by lia. done.
Qed.

Lemma repeated_match (s : jsstring) :
  match_here false [group Dot; Back 1 3 None] [] s =
  match s with
  | [] => None
  | c :: s' =>
      if negb (is_line_terminator c) && (3 <=? span (char_eqb c) s')
      then Some ([[c]], 1 + (span (char_eqb c) s' * 1 + 0))
      else None
  end.
Proof.
  rewrite match_here_group. destruct s as [|c s]; [done |].
  cbn [cset_matches]. destruct (negb (is_line_terminator c)); [| done].
  cbn [match_here app nth Nat.sub length Nat.eqb at_most andb].
  rewrite copies_span by done.
  destruct (Nat.leb_spec 3 (span (char_eqb c) s)) as [Hn | Hn].
  - by rewrite (try_down_first _ _ _ ([[c]], span (char_eqb c) s * 1 + 0)).
  - by rewrite try_down_below.
Qed.

Lemma collapse_repeats_nil : collapse_repeats [] = [].
Proof. done. Qed.

Lemma collapse_repeats_cons (c : ascii) (s : jsstring) :
  collapse_repeats (c :: s) =
  if negb (is_line_terminator c) && (3 <=? span (char_eqb c) s)
  then c :: c :: collapse_repeats (drop_while (char_eqb c) s)
  else c :: collapse_repeats s.
Proof.
  unfold collapse_repeats, replace. cbn [replace_from].
  cbn [re_repeated atoms icase]. rewrite repeated_match.
  destruct (negb (is_line_terminator c) && (3 <=? span (char_eqb c) s)); [| done].
  cbn [Nat.add]. rewrite Nat.mul_1_r, Nat.add_0_r.
  rewrite replace_from_skip by apply span_le_length.
  by rewrite drop_span.
Qed.

Lemma char_eqb_eq (c d : ascii) : char_eqb c d = true <-> c = d.
Proof. apply Ascii.eqb_eq. Qed.

Lemma span_other (c d : ascii) (s : jsstring) :
  c <> d -> span (char_eqb c) (d :: s) = 0.
Proof.
  intros Hne. simpl. destruct (char_eqb c d) eqn:E; [| done].
  by apply char_eqb_eq in E.
Qed.

Lemma span_same (c : ascii) (s : jsstring) :
  span (char_eqb c) (c :: s) = S (span (char_eqb c) s).
Proof. simpl. unfold char_eqb. by rewrite Ascii.eqb_refl. Qed.

(** Length of the leading run of [a] after the rule: a run of four or
    more becomes two, a shorter one is kept. *)
Lemma collapse_repeats_run (a : ascii) (s : jsstring) :
  span (char_eqb a) (collapse_repeats s) =
  if negb (is_line_terminator a) && (4 <=? span (char_eqb a) s)
  then 2 else span (char_eqb a) s.
Proof.
  induction s as [s IH] using length_ind.
  destruct s as [|c s]; [by rewrite andb_false_r |].
  rewrite collapse_repeats_cons.
  destruct (decide (a = c)) as [-> | Hne].
  - rewrite span_same. change (4 <=? S ?n) with (3 <=? n).
    destruct (negb (is_line_terminator c) && (3 <=? span (char_eqb c) s)) eqn:E.
    + rewrite !span_same, IH
        by (simpl; pose proof (drop_while_length (char_eqb c) s); lia).
      by rewrite span_drop_while, andb_false_r.
    + rewrite span_same, IH by (simpl; lia).
      destruct (negb (is_line_terminator c)); [| done]. cbn [andb] in E |- *.
      apply Nat.leb_gt in E.
      destruct (Nat.leb_spec 4 (span (char_eqb c) s)); [lia | done].
  - rewrite (span_other a c s Hne), andb_false_r.
    destruct (_ && _); by apply span_other.
Qed.

(** The rule is idempotent. *)
Lemma collapse_repeats_idempotent (s : jsstring) :
  collapse_repeats (collapse_repeats s) = collapse_repeats s.
Proof.
  induction s as [s IH] using length_ind.
  destruct s as [|c s]; [done |].
  rewrite collapse_repeats_cons.
  destruct (negb (is_line_terminator c) && (3 <=? span (char_eqb c) s)) eqn:E.
  - assert (Hrun : span (char_eqb c)
                     (collapse_repeats (drop_while (char_eqb c) s)) = 0).
    { by rewrite collapse_repeats_run, span_drop_while, andb_false_r. }
    rewrite collapse_repeats_cons, span_same, Hrun, andb_false_r.
    rewrite collapse_repeats_cons, Hrun, andb_false_r.
    rewrite IH; [done |].
    simpl. pose proof (drop_while_length (char_eqb c) s). lia.
  - rewrite collapse_repeats_cons, collapse_repeats_run.
    rewrite IH by (simpl; lia).
    destruct (negb (is_line_terminator c)); [| done]. cbn [andb] in E |- *.
    apply Nat.leb_gt in E.
    destruct (Nat.leb_spec 4 (span (char_eqb c) s)); [lia |].
    destruct (Nat.leb_spec 3 (span (char_eqb c) s)); [lia | done].
Qed.

Lemma collapse_repeats_head (c : ascii) (s : jsstring) :
  exists t, collapse_repeats (c :: s) = c :: t.
Proof. rewrite collapse_repeats_cons. destruct (_ && _); eauto. Qed.

Lemma spaced_drop_while (p : ascii -> bool) (s : jsstring) :
  spaced s -> spaced (drop_while p s).
Proof.
  induction s as [|c s IH]; [done |]. intros Hs. cbn [drop_while].
  destruct (p c); [| done]. apply IH, Hs.
Qed.

(** The rule keeps a tidy text tidy. *)
Lemma collapse_repeats_spaced (s : jsstring) :
  spaced s -> spaced (collapse_repeats s).
Proof.
  induction s as [s IH] using length_ind. intros Hs.
  destruct s as [|c s]; [done |]. destruct Hs as [Hc Hs].
  rewrite collapse_repeats_cons.
  destruct (negb (is_line_terminator c) && (3 <=? span (char_eqb c) s)) eqn:E.
  - assert (Hnsp : is_space c = false).
    { destruct (is_space c) eqn:Esp; [| done].
      destruct (Hc eq_refl) as (_ & Hne & Hl).
      apply andb_true_iff in E as [_ E]. apply Nat.leb_le in E.
      destruct s as [|d s]; [done |]. simpl in E, Hl.
      destruct (char_eqb c d) eqn:Ecd; [| lia].
      apply char_eqb_eq in Ecd as <-. congruence. }
    split; [congruence |]. split; [congruence |].
    apply IH; [| by apply spaced_drop_while].
    simpl. pose proof (drop_while_length (char_eqb c) s). lia.
  - split; [| apply IH; [simpl; lia | done]].
    intros Esp. destruct (Hc Esp) as (-> & Hne & Hl). split; [done |].
    destruct s as [|d s]; [done |].
    destruct (collapse_repeats_head d s) as [t ->]. done.
Qed.

Lemma collapse_repeats_tidy (s : jsstring) : tidy s -> tidy (collapse_repeats s).
Proof.
  intros [Hl Hs]. split; [| by apply collapse_repeats_spaced].
  destruct s as [|c s]; [done |].
  by destruct (collapse_repeats_head c s) as [t ->].
Qed.

(** C8. The whitespace rule and the repeated-character rule leave the
    output of the normaliser unchanged: for every input [x], applying
    either of them, or both in the order of the source, to
    [normalizeText x] yields [normalizeText x]. *)
Theorem normalizeText_stable_under_last_rules (x : jsstring) :
  collapse_whitespace (normalizeText x) = normalizeText x /\
  collapse_repeats (normalizeText x) = normalizeText x /\
  collapse_repeats (collapse_whitespace (normalizeText x)) = normalizeText x.
Proof.
  assert (H : collapse_whitespace (normalizeText x) = normalizeText x /\
              collapse_repeats (normalizeText x) = normalizeText x).
  { destruct x as [|c x]; [done |].
    unfold normalizeText. set (y := fix_oz _). split.
    - apply collapse_whitespace_fixed, collapse_repeats_tidy,
        collapse_whitespace_tidy.
    - apply collapse_repeats_idempotent. }
  destruct H as [Hw Hr]. by rewrite Hw, Hr.
Qed.

(* ================================================================= *)
(** * Further properties *)

(** ** Edit distance: bounds and identity *)

Lemma cell_step (a b : jsstring) (i j : nat) :
  cell a b (S i) (S j) =
  min3 (cell a b i j + cost a b (S i) (S j))
       (cell a b (S i) j + 1)
       (cell a b i (S j) + 1).
Proof. done. Qed.

Lemma cost_le_1 (a b : jsstring) (i j : nat) : cost a b i j <= 1.
Proof. unfold cost. case_decide; lia. Qed.

Lemma cell_lower (a b : jsstring) :
  forall i j, i - j <= cell a b i j /\ j - i <= cell a b i j.
Proof.
  induction i as [|i IHi]; intros j.
  - rewrite cell_col0 || simpl; lia.
  - induction j as [|j IHj]; [simpl; lia |].
    rewrite cell_step. unfold min3.
    pose proof (IHi j). pose proof (IHi (S j)). lia.
Qed.

Lemma cell_upper (a b : jsstring) : forall i j, cell a b i j <= Nat.max i j.
Proof.
  induction i as [|i IHi]; intros j.
  - simpl. lia.
  - destruct j as [|j]; [simpl; lia |].
    rewrite cell_step. unfold min3.
    pose proof (IHi j). pose proof (cost_le_1 a b (S i) (S j)). lia.
Qed.

Lemma cell_zero (a b : jsstring) :
  forall i j, i <= length b -> j <= length a ->
    cell a b i j = 0 -> take i b = take j a.
Proof.
  induction i as [|i IHi]; intros j Hi Hj H.
  - simpl in H. by subst j.
  - destruct j as [|j]; [done |].
    rewrite cell_step in H. unfold min3 in H.
    assert (Hd : cell a b i j = 0) by lia.
    assert (Hc : cost a b (S i) (S j) = 0) by lia.
    unfold cost in Hc. case_decide as Heq; [| done].
    replace (S i - 1) with i in Heq by lia.
    replace (S j - 1) with j in Heq by lia.
    destruct (lookup_lt_is_Some_2 b i) as [x Hx]; [lia |].
    rewrite (take_S_r _ _ _ Hx). rewrite Hx in Heq. symmetry in Heq.
    rewrite (take_S_r _ _ _ Heq). f_equal. apply IHi; [lia.. | done].
Qed.

Lemma cell_diagonal (a : jsstring) : forall i, cell a a i i = 0.
Proof.
  induction i as [|i IH]; [done |].
  rewrite cell_step. unfold min3, cost. rewrite decide_True by done. lia.
Qed.

Lemma levenshteinDistance_same (a : jsstring) : levenshteinDistance a a = 0.
Proof. rewrite levenshteinDistance_cell. apply cell_diagonal. Qed.

(** X1. The distance is zero exactly between identical strings. *)
Theorem levenshteinDistance_zero_iff_equal (a b : jsstring) :
  levenshteinDistance a b = 0 <-> a = b.
Proof.
  rewrite levenshteinDistance_cell. split.
  - intros H. pose proof (cell_lower a b (length b) (length a)) as [H1 H2].
    assert (Hlen : length a = length b) by lia.
    apply cell_zero in H; [| lia..].
    rewrite !take_ge in H by lia. done.
  - intros ->. apply cell_diagonal.
Qed.

(** X2. The distance is at least the difference of the lengths and at most
    the greater length; against the empty string it is the length of the
    other string. *)
Theorem levenshteinDistance_bounds (a b : jsstring) :
  length a - length b <= levenshteinDistance a b /\
  length b - length a <= levenshteinDistance a b /\
  levenshteinDistance a b <= Nat.max (length a) (length b) /\
  levenshteinDistance a [] = length a /\
  levenshteinDistance [] b = length b.
Proof.
  rewrite !levenshteinDistance_cell.
  pose proof (cell_lower a b (length b) (length a)) as [H1 H2].
  pose proof (cell_upper a b (length b) (length a)) as H3.
  repeat split; try lia.
  simpl. apply cell_col0.
Qed.

(** ** Edit distance: edit scripts and the triangle inequality *)

Lemma script_snoc_subst x y a b n :
  script a b n -> script (a ++ [x]) (b ++ [y]) (n + subst_cost x y).
Proof.
  induction 1 as [| x' y' a b n _ IH | x' a b n _ IH | y' a b n _ IH]; simpl.
  - apply (script_subst x y [] [] 0). constructor.
  - replace (n + subst_cost x' y' + subst_cost x y)
      with (n + subst_cost x y + subst_cost x' y') by lia.
    by constructor.
  - replace (n + 1 + subst_cost x y) with (n + subst_cost x y + 1) by lia.
    by constructor.
  - replace (n + 1 + subst_cost x y) with (n + subst_cost x y + 1) by lia.
    by constructor.
Qed.

Lemma script_snoc_delete x a b n : script a b n -> script (a ++ [x]) b (n + 1).
Proof.
  induction 1 as [| x' y' a b n _ IH | x' a b n _ IH | y' a b n _ IH]; simpl.
  - apply (script_delete x [] [] 0). constructor.
  - replace (n + subst_cost x' y' + 1) with (n + 1 + subst_cost x' y') by lia.
    by constructor.
  - by constructor.
  - by constructor.
Qed.

Lemma script_snoc_insert y a b n : script a b n -> script a (b ++ [y]) (n + 1).
Proof.
  induction 1 as [| x' y' a b n _ IH | x' a b n _ IH | y' a b n _ IH]; simpl.
  - apply (script_insert y [] [] 0). constructor.
  - replace (n + subst_cost x' y' + 1) with (n + 1 + subst_cost x' y') by lia.
    by constructor.
  - by constructor.
  - by constructor.
Qed.

Lemma script_of_script_end a b n : script_end a b n -> script a b n.
Proof.
  induction 1.
  - constructor.
  - by apply script_snoc_subst.
  - by apply script_snoc_delete.
  - by apply script_snoc_insert.
Qed.

Lemma script_end_cons_subst x y a b n :
  script_end a b n -> script_end (x :: a) (y :: b) (n + subst_cost x y).
Proof.
  induction 1 as [| x' y' a b n _ IH | x' a b n _ IH | y' a b n _ IH].
  - apply (script_end_subst x y [] [] 0). constructor.
  - replace (n + subst_cost x' y' + subst_cost x y)
      with (n + subst_cost x y + subst_cost x' y') by lia.
    apply (script_end_subst x' y' (x :: a) (y :: b)). done.
  - replace (n + 1 + subst_cost x y) with (n + subst_cost x y + 1) by lia.
    apply (script_end_delete x' (x :: a) (y :: b)). done.
  - replace (n + 1 + subst_cost x y) with (n + subst_cost x y + 1) by lia.
    apply (script_end_insert y' (x :: a) (y :: b)). done.
Qed.

Lemma script_end_cons_delete x a b n :
  script_end a b n -> script_end (x :: a) b (n + 1).
Proof.
  induction 1 as [| x' y' a b n _ IH | x' a b n _ IH | y' a b n _ IH].
  - apply (script_end_delete x [] [] 0). constructor.
  - replace (n + subst_cost x' y' + 1) with (n + 1 + subst_cost x' y') by lia.
    apply (script_end_subst x' y' (x :: a) b). done.
  - apply (script_end_delete x' (x :: a) b). done.
  - apply (script_end_insert y' (x :: a) b). done.
Qed.

Lemma script_end_cons_insert y a b n :
  script_end a b n -> script_end a (y :: b) (n + 1).
Proof.
  induction 1 as [| x' y' a b n _ IH | x' a b n _ IH | y' a b n _ IH].
  - apply (script_end_insert y [] [] 0). constructor.
  - replace (n + subst_cost x' y' + 1) with (n + 1 + subst_cost x' y') by lia.
    apply (script_end_subst x' y' a (y :: b)). done.
  - apply (script_end_delete x' a (y :: b)). done.
  - apply (script_end_insert y' a (y :: b)). done.
Qed.

Lemma script_end_of_script a b n : script a b n -> script_end a b n.
Proof.
  induction 1.
  - constructor.
  - by apply script_end_cons_subst.
  - by apply script_end_cons_delete.
  - by apply script_end_cons_insert.
Qed.

(** A cell depends only on the prefixes it compares. *)
Lemma cell_app (a b u v : jsstring) :
  forall i j, i <= length b -> j <= length a ->
    cell (a ++ u) (b ++ v) i j = cell a b i j.
Proof.
  induction i as [|i IHi]; intros j Hi Hj; [done |].
  induction j as [|j IHj]; [done |].
  rewrite !cell_step, IHj, !IHi by lia. f_equal. f_equal.
  unfold cost. replace (S i - 1) with i by lia. replace (S j - 1) with j by lia.
  by rewrite !lookup_app_l by lia.
Qed.

Lemma cell_right (a b : jsstring) (i j : nat) :
  cell a b i (S j) <= cell a b i j + 1.
Proof. destruct i; [simpl; lia |]. rewrite cell_step. unfold min3. lia. Qed.

Lemma cell_down (a b : jsstring) (i j : nat) :
  cell a b (S i) j <= cell a b i j + 1.
Proof. destruct j; [rewrite !cell_col0; lia |]. rewrite cell_step. unfold min3. lia. Qed.

Lemma cost_snoc (a b : jsstring) (x y : ascii) :
  cost (a ++ [x]) (b ++ [y]) (S (length b)) (S (length a)) = subst_cost x y.
Proof.
  unfold cost, subst_cost.
  replace (S (length b) - 1) with (length b) by lia.
  replace (S (length a) - 1) with (length a) by lia.
  rewrite !list_lookup_middle by done.
  repeat case_decide; congruence.
Qed.

(** No script is cheaper than the distance. *)
Lemma script_end_bound a b n :
  script_end a b n -> cell a b (length b) (length a) <= n.
Proof.
  induction 1 as [| x y a b n _ IH | x a b n _ IH | y a b n _ IH].
  - done.
  - rewrite !length_app. simpl. rewrite !Nat.add_1_r, cell_step.
    rewrite cost_snoc, cell_app by lia. unfold min3. lia.
  - rewrite length_app. simpl. rewrite Nat.add_1_r.
    pose proof (cell_right (a ++ [x]) b (length b) (length a)) as Hr.
    pose proof (cell_app a b [x] [] (length b) (length a)) as Ha.
    rewrite app_nil_r in Ha. rewrite Ha in Hr by lia. lia.
  - rewrite length_app. simpl. rewrite Nat.add_1_r.
    pose proof (cell_down a (b ++ [y]) (length b) (length a)) as Hd.
    pose proof (cell_app a b [] [y] (length b) (length a)) as Ha.
    rewrite app_nil_r in Ha. rewrite Ha in Hd by lia. lia.
Qed.

Lemma min3_cases (x y z : nat) :
  min3 x y z = x \/ min3 x y z = y \/ min3 x y z = z.
Proof. unfold min3. lia. Qed.

(** The distance is the cost of some script. *)
Lemma cell_script_end (a b : jsstring) :
  forall i j, i <= length b -> j <= length a ->
    script_end (take j a) (take i b) (cell a b i j).
Proof.
  assert (Hrow : forall j, j <= length a -> script_end (take j a) [] j).
  { induction j as [|j IH]; intros Hj; [constructor |].
    destruct (lookup_lt_is_Some_2 a j) as [x Hx]; [lia |].
    rewrite (take_S_r _ _ _ Hx), <- Nat.add_1_r. constructor. apply IH. lia. }
  induction i as [|i IHi]; intros j Hi Hj.
  - simpl. rewrite take_0. by apply Hrow.
  - destruct (lookup_lt_is_Some_2 b i) as [y Hy]; [lia |].
    induction j as [|j IHj].
    + simpl cell. rewrite take_0, (take_S_r _ _ _ Hy), <- Nat.add_1_r.
      constructor. specialize (IHi 0). rewrite take_0 in IHi.
      rewrite <- (cell_col0 a b i) at 2. apply IHi; lia.
    + destruct (lookup_lt_is_Some_2 a j) as [x Hx]; [lia |].
      rewrite cell_step.
      destruct (min3_cases (cell a b i j + cost a b (S i) (S j))
                  (cell a b (S i) j + 1) (cell a b i (S j) + 1)) as [-> | [-> | ->]].
      * rewrite (take_S_r _ _ _ Hx), (take_S_r _ _ _ Hy).
        replace (cost a b (S i) (S j)) with (subst_cost x y).
        { constructor. apply IHi; lia. }
        unfold cost, subst_cost.
        replace (S i - 1) with i by lia. replace (S j - 1) with j by lia.
        rewrite Hx, Hy. repeat case_decide; congruence.
      * rewrite (take_S_r _ _ _ Hx). constructor. apply IHj. lia.
      * rewrite (take_S_r b _ _ Hy). constructor. apply IHi; lia.
Qed.

Lemma subst_cost_triangle (x y z : ascii) :
  subst_cost x z <= subst_cost x y + subst_cost y z.
Proof. unfold subst_cost. repeat case_decide; try lia. congruence. Qed.

(** Scripts compose. *)
Lemma script_compose a b n :
  script a b n ->
  forall c m, script b c m -> exists k, k <= n + m /\ script a c k.
Proof.
  induction 1 as [| x y a b n _ IH | x a b n _ IH | y a b n Hab IH]; intros c m Hbc.
  - exists m. split; [lia | done].
  - remember (y :: b) as yb eqn:E.
    induction Hbc as [| y' z b' c m Hbc _ | y' b' c m Hbc _ | z b' c m Hbc IHin].
    + done.
    + injection E as -> ->. destruct (IH _ _ Hbc) as (k & Hk & Hs).
      exists (k + subst_cost x z). split; [| by constructor].
      pose proof (subst_cost_triangle x y z). lia.
    + injection E as -> ->. destruct (IH _ _ Hbc) as (k & Hk & Hs).
      exists (k + 1). split; [lia | by constructor].
    + destruct (IHin E) as (k & Hk & Hs).
      exists (k + 1). split; [lia | by constructor].
  - destruct (IH _ _ Hbc) as (k & Hk & Hs).
    exists (k + 1). split; [lia | by constructor].
  - remember (y :: b) as yb eqn:E.
    induction Hbc as [| y' z b' c m Hbc _ | y' b' c m Hbc _ | z b' c m Hbc IHin].
    + done.
    + injection E as -> ->. destruct (IH _ _ Hbc) as (k & Hk & Hs).
      exists (k + 1). split; [lia | by constructor].
    + injection E as -> ->. destruct (IH _ _ Hbc) as (k & Hk & Hs).
      exists k. split; [lia | done].
    + destruct (IHin E) as (k & Hk & Hs).
      exists (k + 1). split; [lia | by constructor].
Qed.

Lemma levenshteinDistance_script_exists (a b : jsstring) :
  script a b (levenshteinDistance a b).
Proof.
  rewrite levenshteinDistance_cell. apply script_of_script_end.
  pose proof (cell_script_end a b (length b) (length a)) as H.
  rewrite !take_ge in H by lia. apply H; lia.
Qed.

Lemma levenshteinDistance_script_least (a b : jsstring) (n : nat) :
  script a b n -> levenshteinDistance a b <= n.
Proof.
  intros Hn. rewrite levenshteinDistance_cell.
  by apply script_end_bound, script_end_of_script.
Qed.

(** X3. [levenshteinDistance a b] is the minimum number of edits
    (substitutions, deletions and insertions of one code unit) that turn
    [a] into [b]: some sequence of edits has that cost and none has
    less. *)
Theorem levenshteinDistance_is_least_edit_count (a b : jsstring) :
  script a b (levenshteinDistance a b) /\
  forall n, script a b n -> levenshteinDistance a b <= n.
Proof.
  split.
  - apply levenshteinDistance_script_exists.
  - intros n Hn. by apply levenshteinDistance_script_least.
Qed.

(** X4. The distance satisfies the triangle inequality. *)
Theorem levenshteinDistance_triangle (a b c : jsstring) :
  levenshteinDistance a c <= levenshteinDistance a b + levenshteinDistance b c.
Proof.
  pose proof (levenshteinDistance_script_exists a b) as Hab.
  pose proof (levenshteinDistance_script_exists b c) as Hbc.
  destruct (script_compose _ _ _ Hab _ _ Hbc) as (k & Hk & Hs).
  pose proof (levenshteinDistance_script_least a c k Hs). lia.
Qed.

(** ** The scan of [findBestMatch] *)

Lemma keep_better_linked e w best :
  linked e best -> linked e (keep_better e w best).
Proof. intros H. unfold keep_better. by destruct (below _ _). Qed.

Lemma keep_better_le e w best :
  dist_le (distance (keep_better e w best)) (distance best) /\
  dist_le (distance (keep_better e w best)) (Fin (levenshteinDistance e w)).
Proof.
  unfold keep_better. destruct (distance best) as [n |] eqn:E; simpl.
  - destruct (Nat.ltb_spec (levenshteinDistance e w) n); simpl; rewrite ?E; simpl; lia.
  - done.
Qed.

Lemma dist_le_trans d1 d2 d3 : dist_le d1 d2 -> dist_le d2 d3 -> dist_le d1 d3.
Proof. destruct d1, d2, d3; simpl; try done; lia. Qed.

Lemma scan_fold_linked e l : forall best,
  linked e best -> linked e (fold_left (fun b w => keep_better e w b) l best).
Proof.
  induction l as [|w l IH]; intros best H; [done |].
  simpl. by apply IH, keep_better_linked.
Qed.

Lemma scan_fold_le e l : forall best,
  dist_le (distance (fold_left (fun b w => keep_better e w b) l best)) (distance best).
Proof.
  induction l as [|w l IH]; intros best; simpl.
  - destruct (distance best); simpl; [lia | done].
  - eapply dist_le_trans; [apply IH | apply keep_better_le].
Qed.

Lemma scan_fold_min e l : forall best w,
  In w l ->
  dist_le (distance (fold_left (fun b w => keep_better e w b) l best))
          (Fin (levenshteinDistance e w)).
Proof.
  induction l as [|w' l IH]; intros best w Hin; [done |].
  simpl. destruct Hin as [-> | Hin].
  - eapply dist_le_trans; [apply scan_fold_le | apply keep_better_le].
  - by apply IH.
Qed.

Lemma scan_fold_word e l : forall best,
  word (fold_left (fun b w => keep_better e w b) l best) = word best \/
  exists w, In w l /\
    word (fold_left (fun b w => keep_better e w b) l best) = Some w.
Proof.
  induction l as [|w' l IH]; intros best; [by left |].
  simpl. destruct (IH (keep_better e w' best)) as [H | (w & Hin & H)].
  - rewrite H. unfold keep_better. destruct (below _ _); simpl.
    + right. exists w'. split; [by left | done].
    + by left.
  - right. exists w. split; [by right | done].
Qed.

Lemma scan_body_fold e (words : list jsstring) i best :
  for_while 2 1 (fun j => (j <? 3) && (i + j <? length words))
    (fun j best =>
       keep_better e (join (js " ") (slice i (i + j + 1) words)) best)
    (keep_better e (words !!! i) best) =
  fold_left (fun b w => keep_better e w b) (phrases_at words i) best.
Proof.
  unfold phrases_at. cbn [for_while fold_left].
  change (1 <? 3) with true. change (2 <? 3) with true. cbn [andb].
  destruct (i + 1 <? length words); [| done].
  by destruct (i + 2 <? length words).
Qed.

Lemma scan_fold e (words : list jsstring) :
  scan e words =
  fold_left (fun b w => keep_better e w b) (candidates words)
            (Candidate Infinity None).
Proof.
  unfold scan, candidates.
  apply (for_range_ind
           (fun i best =>
              best = fold_left (fun b w => keep_better e w b)
                       (flat_map (phrases_at words) (seq 0 i))
                       (Candidate Infinity None))); [lia | done |].
  intros i best Hi ->.
  rewrite seq_S, flat_map_app, fold_left_app. simpl flat_map.
  rewrite app_nil_r. apply scan_body_fold.
Qed.

Lemma slice_one (words : list jsstring) i :
  i < length words -> join (js " ") (slice i (i + 0 + 1) words) = words !!! i.
Proof.
  intros Hi. unfold slice. replace (i + 0 + 1 - i) with 1 by lia.
  destruct (lookup_lt_is_Some_2 words i) as [w Hw]; [done |].
  rewrite (list_lookup_total_correct _ _ _ Hw).
  rewrite (drop_S _ _ _ Hw). done.
Qed.

(** The candidates are the phrases of one, two or three consecutive
    words. *)
Lemma In_candidates (words : list jsstring) w :
  In w (candidates words) <->
  exists i j, j < 3 /\ i + j < length words /\
              w = join (js " ") (slice i (i + j + 1) words).
Proof.
  unfold candidates. rewrite in_flat_map. split.
  - intros (i & Hi & Hw). apply in_seq in Hi. exists i. unfold phrases_at in Hw.
    destruct Hw as [<- | Hw].
    { exists 0. rewrite slice_one by lia. split; [lia |]. split; [lia | done]. }
    destruct (Nat.ltb_spec (i + 1) (length words)) as [H1 | H1]; [| done].
    destruct Hw as [<- | Hw]; [exists 1; split; [lia |]; by split |].
    destruct (Nat.ltb_spec (i + 2) (length words)) as [H2 | H2]; [| done].
    destruct Hw as [<- | []]. exists 2. split; [lia |]. by split.
  - intros (i & j & Hj & Hij & ->). exists i. split; [apply in_seq; lia |].
    unfold phrases_at.
    destruct j as [|[|[|j]]]; [| | | lia].
    + left. symmetry. apply slice_one. lia.
    + right. destruct (Nat.ltb_spec (i + 1) (length words)); [by left | lia].
    + right. destruct (Nat.ltb_spec (i + 1) (length words)); [| lia]. right.
      destruct (Nat.ltb_spec (i + 2) (length words)); [by left | lia].
Qed.

(** [split] never yields the empty array on the whitespace pattern. *)
Lemma split_from_nonempty re s : forall skip cur, split_from re skip cur s <> [].
Proof.
  induction s as [|c s IH]; intros skip cur; [done |].
  cbn [split_from]. destruct skip; [| apply IH].
  destruct (match_here _ _ _ _) as [[caps [|n]] |]; [destruct cur | |]; try done;
    apply IH.
Qed.

Lemma split_spaces_nonempty s : split re_spaces s <> [].
Proof. destruct s; [done |]. apply split_from_nonempty. Qed.

(** The scan keeps the first candidate at the least distance. *)
Lemma scan_spec e (words : list jsstring) :
  words <> [] ->
  exists w,
    word (scan e words) = Some w /\
    distance (scan e words) = Fin (levenshteinDistance e w) /\
    In w (candidates words) /\
    forall w', In w' (candidates words) ->
               levenshteinDistance e w <= levenshteinDistance e w'.
Proof.
  intros Hne. rewrite scan_fold.
  set (c := fold_left _ _ _).
  assert (Hl : linked e c) by by apply scan_fold_linked.
  assert (Hin0 : In (words !!! 0) (candidates words)).
  { apply In_candidates. exists 0, 0. rewrite slice_one; [| destruct words; simpl; [done | lia]].
    split; [lia |]. split; [| done]. destruct words; simpl; [done | lia]. }
  pose proof (scan_fold_min e (candidates words) (Candidate Infinity None) _ Hin0) as H0.
  fold c in H0.
  destruct (scan_fold_word e (candidates words) (Candidate Infinity None))
    as [Hw | (w & Hin & Hw)]; fold c in Hw.
  - unfold linked in Hl. rewrite Hw in Hl. simpl in Hl.
    by destruct (distance c).
  - exists w. unfold linked in Hl. rewrite Hw in Hl.
    destruct (distance c) as [d |] eqn:Ed; [| done]. subst d.
    split; [done |]. split; [done |]. split; [done |].
    intros w' Hin'.
    pose proof (scan_fold_min e (candidates words) (Candidate Infinity None) _ Hin') as H.
    fold c in H. rewrite Ed in H. exact H.
Qed.

(** X5. [findBestMatch] always returns a word and a finite distance, the
    distance is the edit distance between the search value and that word,
    the word is the search value itself or a phrase of one, two or three
    consecutive words of the text, and no such phrase is closer to the
    search value. *)
Theorem findBestMatch_closest_phrase (searchValue text0 : jsstring) :
  exists w,
    bm_word (findBestMatch searchValue text0) = Some w /\
    bm_distance (findBestMatch searchValue text0) =
      Fin (levenshteinDistance searchValue w) /\
    (w = searchValue \/
     exists i j, j < 3 /\ i + j < length (split re_spaces text0) /\
       w = join (js " ") (slice i (i + j + 1) (split re_spaces text0))) /\
    forall i j, j < 3 -> i + j < length (split re_spaces text0) ->
      levenshteinDistance searchValue w <=
      levenshteinDistance searchValue
        (join (js " ") (slice i (i + j + 1) (split re_spaces text0))).
Proof.
  unfold findBestMatch. destruct (includes text0 searchValue).
  - exists searchValue. cbn [bm_word bm_distance].
    assert (H0 : levenshteinDistance searchValue searchValue = 0)
      by apply levenshteinDistance_same.
    rewrite H0. split; [done |]. split; [done |]. split; [by left |]. lia.
  - destruct (scan_spec searchValue (split re_spaces text0)
                (split_spaces_nonempty text0)) as (w & Hw & Hd & Hin & Hmin).
    exists w. cbn [bm_word bm_distance].
    split; [done |]. split; [done |]. split.
    + right. by apply In_candidates.
    + intros i j Hj Hij. apply Hmin, In_candidates. by exists i, j.
Qed.

(** ** Confidence as a function of the distance *)

Lemma Qnat_lt_iff (n m : nat) : (Qnat n < Qnat m)%Q <-> n < m.
Proof. unfold Qnat. rewrite <- Zlt_Qlt. lia. Qed.

Lemma Qnat_eq_iff (n m : nat) : (Qnat n == Qnat m)%Q <-> n = m.
Proof. unfold Qnat. rewrite inject_Z_injective. lia. Qed.

Lemma Qnat_mult (n m : nat) : (Qnat (n * m) == Qnat n * Qnat m)%Q.
Proof. unfold Qnat. by rewrite Nat2Z.inj_mul, inject_Z_mult. Qed.

Lemma ratio_mult (d L : nat) : 0 < L -> (Qnat d / Qnat L * Qnat L == Qnat d)%Q.
Proof.
  intros HL. rewrite Qmult_comm. apply Qmult_div_r. intros H.
  change 0%Q with (Qnat 0) in H. apply Qnat_eq_iff in H. lia.
Qed.

Lemma ratio_threshold (d L : nat) :
  0 < L -> ((7 # 10) < 1 - Qnat d / Qnat L)%Q <-> 10 * d < 3 * L.
Proof.
  intros HL. pose proof (ratio_mult d L HL) as Hx.
  pose proof (Qnat_pos L HL) as HLq.
  set (x := (Qnat d / Qnat L)%Q) in *.
  rewrite <- Qnat_lt_iff, !Qnat_mult.
  change (Qnat 10) with 10%Q. change (Qnat 3) with 3%Q.
  rewrite <- Hx. split; intros H; nra.
Qed.

Lemma ratio_one (d L : nat) :
  0 < L -> (1 - Qnat d / Qnat L == 1)%Q <-> d = 0.
Proof.
  intros HL. pose proof (ratio_mult d L HL) as Hx.
  pose proof (Qnat_pos L HL) as HLq.
  set (x := (Qnat d / Qnat L)%Q) in *.
  rewrite <- (Qnat_eq_iff d 0). change (Qnat 0) with 0%Q.
  rewrite <- Hx. split; intros H.
  - assert (x == 0)%Q as -> by lra. lra.
  - assert (x == 0)%Q as ->; [| lra]. nra.
Qed.

Lemma levenshteinDistance_le_max (a b : jsstring) :
  levenshteinDistance a b <= Nat.max (length a) (length b).
Proof.
  rewrite levenshteinDistance_cell.
  pose proof (cell_upper a b (length b) (length a)). lia.
Qed.

(** The clamp [Math.max(0, ...)] is idle when the distance is at most the
    length it is divided by. *)
Lemma confidence_of_unclamped (d L : nat) :
  0 < L -> d <= L -> (confidence_of (Fin d) L == 1 - Qnat d / Qnat L)%Q.
Proof.
  intros HL Hd. unfold confidence_of.
  destruct (Nat.ltb_spec 0 L) as [_ | ?]; [| lia].
  apply Q.max_r.
  pose proof (ratio_mult d L HL) as Hx.
  pose proof (Qnat_pos L HL) as HLq.
  pose proof (Qnat_le d L Hd) as Hle.
  set (x := (Qnat d / Qnat L)%Q) in *. rewrite <- Hx in Hle. nra.
Qed.

Lemma findBestMatch_word (searchValue text0 : jsstring) :
  exists w,
    bm_word (findBestMatch searchValue text0) = Some w /\
    bm_distance (findBestMatch searchValue text0) =
      Fin (levenshteinDistance searchValue w).
Proof.
  unfold findBestMatch. destruct (includes text0 searchValue).
  - exists searchValue. by rewrite levenshteinDistance_same.
  - destruct (scan_spec searchValue (split re_spaces text0)
                (split_spaces_nonempty text0)) as (w & Hw & Hd & _).
    by exists w.
Qed.

Lemma findBestMatch_confidence_formula_aux (searchValue text0 : jsstring) :
  searchValue <> [] ->
  exists w,
    bm_word (findBestMatch searchValue text0) = Some w /\
    (Qgtb (bm_confidence (findBestMatch searchValue text0)) (7 # 10) = true <->
     10 * levenshteinDistance searchValue w <
     3 * Nat.max (length searchValue) (length w)).
Proof.
  intros Hne.
  destruct (findBestMatch_word searchValue text0) as (w & Hw & Hd).
  exists w. split; [done |].
  pose proof (levenshteinDistance_le_max searchValue w) as Hle.
  assert (HL : 0 < Nat.max (length searchValue) (length w)).
  { destruct searchValue; [done | simpl; lia]. }
  rewrite Qgtb_lt. rewrite <- ratio_threshold by done.
  destruct (includes text0 searchValue) eqn:I.
  - rewrite (findBestMatch_exact _ _ I) in Hw |- *. injection Hw as <-.
    rewrite levenshteinDistance_same. cbn [bm_confidence].
    assert (H1 : (1 - Qnat 0 / Qnat (Nat.max (length searchValue) (length searchValue)) == 1)%Q)
      by by apply ratio_one.
    by rewrite H1.
  - destruct (findBestMatch_scan _ _ I) as [_ Hconf].
    rewrite Hconf, Hd. unfold norm_length. rewrite Hw.
    by rewrite confidence_of_unclamped.
Qed.

(** X6. For a non-empty search value the confidence is exactly
    [1 - distance / maxLength], where [maxLength] is the greater of the
    lengths of the search value and of the returned word: the distance
    never exceeds [maxLength], so the clamp at 0 is never needed.  The
    confidence is 1 only at distance 0, and it passes the 0.7 threshold
    exactly when the distance is less than 30% of [maxLength]. *)
Theorem findBestMatch_confidence_formula (searchValue text0 : jsstring) :
  searchValue <> [] ->
  exists w d maxLength,
    bm_word (findBestMatch searchValue text0) = Some w /\
    bm_distance (findBestMatch searchValue text0) = Fin d /\
    d = levenshteinDistance searchValue w /\
    maxLength = Nat.max (length searchValue) (length w) /\
    d <= maxLength /\
    (bm_confidence (findBestMatch searchValue text0) ==
       1 - Qnat d / Qnat maxLength)%Q /\
    ((bm_confidence (findBestMatch searchValue text0) == 1)%Q <-> d = 0) /\
    (Qgtb (bm_confidence (findBestMatch searchValue text0)) (7 # 10) = true <->
     10 * d < 3 * maxLength).
Proof.
  intros Hne.
  destruct (findBestMatch_word searchValue text0) as (w & Hw & Hd).
  exists w, (levenshteinDistance searchValue w),
         (Nat.max (length searchValue) (length w)).
  pose proof (levenshteinDistance_le_max searchValue w) as Hle.
  assert (HL : 0 < Nat.max (length searchValue) (length w)).
  { destruct searchValue; [done | simpl; lia]. }
  assert (Hc : (bm_confidence (findBestMatch searchValue text0) ==
                1 - Qnat (levenshteinDistance searchValue w) /
                    Qnat (Nat.max (length searchValue) (length w)))%Q).
  { destruct (includes text0 searchValue) eqn:I.
    - rewrite (findBestMatch_exact _ _ I) in Hw |- *. injection Hw as <-.
      rewrite levenshteinDistance_same. cbn [bm_confidence].
      symmetry. by apply ratio_one.
    - destruct (findBestMatch_scan _ _ I) as [_ Hconf].
      rewrite Hconf, Hd. unfold norm_length. rewrite Hw.
      by apply confidence_of_unclamped. }
  repeat split; try done.
  - rewrite Hc. by apply ratio_one.
  - rewrite Hc. by apply ratio_one.
  - rewrite Qgtb_lt, Hc. by apply ratio_threshold.
  - rewrite Qgtb_lt, Hc. by apply ratio_threshold.
Qed.

Lemma findBestMatch_confidence_formula_witness :
  exists w d maxLength,
    bm_word (findBestMatch (js "brand") (js "a brxnd")) = Some w /\
    bm_distance (findBestMatch (js "brand") (js "a brxnd")) = Fin d /\
    d = levenshteinDistance (js "brand") w /\
    maxLength = Nat.max (length (js "brand")) (length w) /\
    d <= maxLength /\
    (bm_confidence (findBestMatch (js "brand") (js "a brxnd")) ==
       1 - Qnat d / Qnat maxLength)%Q /\
    ((bm_confidence (findBestMatch (js "brand") (js "a brxnd")) == 1)%Q <-> d = 0) /\
    (Qgtb (bm_confidence (findBestMatch (js "brand") (js "a brxnd"))) (7 # 10) = true <->
     10 * d < 3 * maxLength).
Proof. apply findBestMatch_confidence_formula. discriminate. Defined.

(** ** [verifyText]: errors, independence of the fields, letter case *)


(** X8. The fields are verified independently: the results for a sequence
    of fields followed by another are the results for the first followed
    by the results for the second. *)
Theorem verifyText_app (extractedText : jsstring)
    (fields1 fields2 : list (jsstring * jsstring)) :
  extractedText <> [] ->
  exists results1 results2,
    verifyText extractedText fields1 = Ok results1 /\
    verifyText extractedText fields2 = Ok results2 /\
    verifyText extractedText (fields1 ++ fields2) = Ok (results1 ++ results2).
Proof.
  intros Hne. do 2 eexists.
  rewrite !verifyText_entries by done.
  split; [done |]. split; [done |].
  by rewrite filter_app, map_app.
Qed.

Lemma verifyText_app_witness :
  exists results1 results2,
    verifyText (js "ACME vodka 40%") [(js "brandName", js "ACME")] = Ok results1 /\
    verifyText (js "ACME vodka 40%") [(js "alcoholContent", js "40%")] = Ok results2 /\
    verifyText (js "ACME vodka 40%")
      ([(js "brandName", js "ACME")] ++ [(js "alcoholContent", js "40%")]) =
      Ok (results1 ++ results2).
Proof. apply verifyText_app. discriminate. Defined.

Lemma lower_char_idempotent (c : ascii) : lower_char (lower_char c) = lower_char c.
Proof. destruct c as [[] [] [] [] [] [] [] []]; reflexivity. Qed.

Lemma toLowerCase_idempotent (s : jsstring) :
  toLowerCase (toLowerCase s) = toLowerCase s.
Proof.
  unfold toLowerCase. rewrite map_map. apply map_ext, lower_char_idempotent.
Qed.

Lemma toLowerCase_length (s : jsstring) : length (toLowerCase s) = length s.
Proof. apply length_map. Qed.

(** X9. The verification does not depend on letter case: two texts that
    agree up to case give the same results, and two values of a field that
    agree up to case give the same [found], [confidence] and
    [bestMatch]. *)
Theorem verifyText_case_insensitive :
  (forall (text1 text2 : jsstring) (fields : list (jsstring * jsstring)),
      text1 <> [] ->
      toLowerCase text1 = toLowerCase text2 ->
      verifyText text1 fields = verifyText text2 fields) /\
  (forall (extractedText fieldName value1 value2 : jsstring),
      extractedText <> [] -> value1 <> [] ->
      toLowerCase value1 = toLowerCase value2 ->
      exists r1 r2,
        verifyText extractedText [(fieldName, value1)] = Ok [r1] /\
        verifyText extractedText [(fieldName, value2)] = Ok [r2] /\
        found r1 = found r2 /\ confidence r1 = confidence r2 /\
        bestMatch r1 = bestMatch r2).
Proof.
  split.
  - intros text1 text2 fields Hne Heq.
    assert (Hne2 : text2 <> []).
    { intros ->. by apply toLowerCase_nil_inv in Heq. }
    by rewrite !verifyText_entries, Heq by done.
  - intros extractedText fieldName value1 value2 Hne Hv1 Heq.
    assert (Hv2 : value2 <> []).
    { intros ->. by apply toLowerCase_nil_inv in Heq. }
    exists (verify_entry (toLowerCase extractedText) (fieldName, value1)),
           (verify_entry (toLowerCase extractedText) (fieldName, value2)).
    rewrite !verifyText_entries by done.
    rewrite !filter_cons_True, !filter_nil by done.
    split; [done |]. split; [done |].
    unfold verify_entry. cbn [fst snd found confidence bestMatch].
    by rewrite Heq.
Qed.

Lemma verifyText_case_insensitive_witness :
  verifyText (js "Net Contents 750 ML") [(js "netContents", js "750 ml")] =
  verifyText (js "NET CONTENTS 750 ml") [(js "netContents", js "750 ml")].
Proof.
  apply (proj1 verifyText_case_insensitive).
  - discriminate.
  - reflexivity.
Defined.

(** X10. Every result of [verifyText] names a best match, and the field
    is reported found exactly when the edit distance between the
    lower-cased value and that best match is less than 30% of the greater
    of their lengths. *)
Theorem verifyText_found_iff_close (extractedText : jsstring)
    (fields : list (jsstring * jsstring)) (results : list result) :
  verifyText extractedText fields = Ok results ->
  Forall (fun r =>
            exists w,
              bestMatch r = Some w /\
              (found r = true <->
               10 * levenshteinDistance (toLowerCase (input r)) w <
               3 * Nat.max (length (input r)) (length w)))
         results.
Proof.
  destruct extractedText as [|c s]; [done |].
  rewrite verifyText_entries by done. intros [= <-].
  apply Forall_fmap, Forall_forall. intros [n v] Hin.
  apply list_elem_of_filter in Hin as [Hv _]. simpl in Hv.
  assert (Hlv : toLowerCase v <> []).
  { intros H. by apply toLowerCase_nil_inv in H. }
  destruct (findBestMatch_confidence_formula_aux (toLowerCase v)
              (toLowerCase (c :: s)) Hlv) as (w & Hw & Hfound).
  exists w. cbn [verify_entry bestMatch found input fst snd].
  split; [done |]. by rewrite Hfound, toLowerCase_length.
Qed.

Lemma verifyText_found_iff_close_witness :
  Forall (fun r =>
            exists w,
              bestMatch r = Some w /\
              (found r = true <->
               10 * levenshteinDistance (toLowerCase (input r)) w <
               3 * Nat.max (length (input r)) (length w)))
         [Result (js "brandName") (js "ACME") true 1 (Some (js "acme"))].
Proof.
  apply (verifyText_found_iff_close (js "ACME vodka") [(js "brandName", js "ACME")]).
  reflexivity.
Defined.

(** ** Words of a text *)

Lemma split_from_skip (re : regex) (s : jsstring) :
  forall n cur, n <= length s ->
    split_from re n cur s = split_from re 0 cur (drop n s).
Proof.
  induction s as [|c s IH]; intros n cur Hn.
  - simpl in Hn. by assert (n = 0) as -> by lia.
  - destruct n as [|n]; [done |]. simpl in Hn. cbn [split_from drop].
    apply IH. lia.
Qed.

Lemma split_spaces_cons (c : ascii) (s cur : jsstring) :
  split_from re_spaces 0 cur (c :: s) =
  if is_space c
  then cur :: split_from re_spaces 0 [] (drop_while is_space s)
  else split_from re_spaces 0 (cur ++ [c]) s.
Proof.
  cbn [split_from]. cbn [re_spaces atoms icase].
  rewrite spaces_match. cbn [span].
  destruct (is_space c); [| done].
  cbn [Nat.eqb Nat.add]. rewrite Nat.add_0_r.
  rewrite split_from_skip by apply span_le_length.
  by rewrite drop_span.
Qed.

Lemma join_cons (sep x : jsstring) (l : list jsstring) :
  l <> [] -> join sep (x :: l) = x ++ sep ++ join sep l.
Proof. by destruct l. Qed.

Lemma join_split_from (s : jsstring) :
  forall cur,
    join (js " ") (split_from re_spaces 0 cur s) =
    cur ++ replace re_spaces (plain " ") s.
Proof.
  induction s as [s IH] using length_ind. intros cur.
  destruct s as [|c s]; [by rewrite app_nil_r |].
  rewrite split_spaces_cons, replace_spaces_cons.
  destruct (is_space c).
  - rewrite join_cons by apply split_from_nonempty.
    rewrite IH by (simpl; pose proof (drop_while_length is_space s); lia).
    done.
  - rewrite IH by (simpl; lia). by rewrite <- app_assoc.
Qed.

Lemma split_from_words (s : jsstring) :
  forall cur,
    Forall (fun c => is_space c = false) cur ->
    Forall (Forall (fun c => is_space c = false)) (split_from re_spaces 0 cur s).
Proof.
  induction s as [s IH] using length_ind. intros cur Hcur.
  destruct s as [|c s]; [by constructor |].
  rewrite split_spaces_cons. destruct (is_space c) eqn:Hc.
  - constructor; [done |].
    apply IH; [| done]. simpl. pose proof (drop_while_length is_space s). lia.
  - apply IH; [simpl; lia |]. apply Forall_app. split; [done |]. by constructor.
Qed.

Lemma normalizeText_tidy (x : jsstring) : tidy (normalizeText x).
Proof.
  destruct x as [|c x]; [done |]. unfold normalizeText.
  apply collapse_repeats_tidy, collapse_whitespace_tidy.
Qed.

(** X11. The words [split(/\s+/)] yields contain no whitespace; joined
    by single spaces they give the text with every run of whitespace
    replaced by one space; and on a normalised text the round trip is the
    identity. *)
Theorem split_join_spaces (s : jsstring) :
  Forall (Forall (fun c => is_space c = false)) (split re_spaces s) /\
  join (js " ") (split re_spaces s) = replace re_spaces (plain " ") s /\
  join (js " ") (split re_spaces (normalizeText s)) = normalizeText s.
Proof.
  assert (Hjoin : forall t, join (js " ") (split re_spaces t) =
                            replace re_spaces (plain " ") t).
  { intros [|c t]; [done |]. apply (join_split_from (c :: t) []). }
  split; [| split].
  - destruct s as [|c s]; [by repeat constructor |].
    by apply (split_from_words (c :: s) []).
  - apply Hjoin.
  - rewrite Hjoin. apply replace_spaces_spaced, normalizeText_tidy.
Qed.

(** ** The OCR wrapper: number of calls and choice of the result *)

Lemma run_length cfgs log : run cfgs log -> length log <= length cfgs.
Proof. induction 1; simpl; lia. Qed.

Lemma run_nonempty cfg cfgs log : run (cfg :: cfgs) log -> log <> [].
Proof. by inversion 1. Qed.

Lemma run_complete cfgs log :
  run cfgs log ->
  (forall e, e ∈ log -> ends_loop (snd e) = false) ->
  map fst log = cfgs.
Proof.
  induction 1 as [| cfg rest r Hr | cfg rest r log Hr _ IH]; intros Hall.
  - done.
  - specialize (Hall (cfg, r) (list_elem_of_here _ _)). simpl in Hall. congruence.
  - simpl. f_equal. apply IH. intros e He. apply Hall. by apply list_elem_of_further.
Qed.

Section ProcessImageChoice.

Variable world : Type.
Variable recognize : world -> config -> recognition * world.

(** X12. [processImage] calls the recognition dependency at least once
    and at most four times; when no call yields a confidence above 80
    with a normalised text longer than 50, it calls the four
    configurations, each once, in their order. *)
Theorem processImage_call_count (score_above : Q -> nat -> Q -> nat -> bool)
    (w : world) :
  let log := snd (processImage world recognize score_above w) in
  1 <= length log <= 4 /\
  ((forall cfg text0 confidence0,
       (cfg, Recognized text0 confidence0) ∈ log ->
       ~ ((80 < confidence0)%Q /\ 50 < length (normalizeText text0))) ->
   map fst log = ocrConfigs).
Proof.
  destruct (processImage_with_spec world recognize score_above ocrConfigs w)
    as (Hrun & _).
  fold (processImage world recognize score_above w) in Hrun.
  split.
  - pose proof (run_length _ _ Hrun) as Hle.
    pose proof (run_nonempty _ _ _ Hrun) as Hne.
    change (length ocrConfigs) with 4 in Hle.
    destruct (snd (processImage world recognize score_above w)); [done |].
    simpl in *. lia.
  - intros Hno. apply run_complete; [done |].
    intros [cfg [text0 confidence0 |]] He; [| done]. simpl.
    destruct (good_enough confidence0 (normalizeText text0)) eqn:Hg; [| done].
    apply good_enough_spec in Hg. by destruct (Hno _ _ _ He).
Qed.

Variable score : Q -> nat -> Q.

Local Abbreviation by_score :=
  (fun c n c' n' => Qgtb (score c n) (score c' n')).

Lemma better_dominates confidence0 text0 cfg best log :
  dominates score best log ->
  dominates score (better by_score confidence0 (normalizeText text0) best)
            (log ++ [(cfg, Recognized text0 confidence0)]).
Proof.
  intros Hdom cfg' t c Hin. apply elem_of_app in Hin as [Hin | Hin].
  - destruct (Hdom _ _ _ Hin) as (b & -> & Hle). unfold better.
    destruct (Qgtb _ _) eqn:Hgt.
    + eexists. split; [done |]. simpl. apply Qgtb_lt in Hgt.
      apply Qlt_le_weak. eapply Qle_lt_trans; [exact Hle | exact Hgt].
    + by exists b.
  - apply list_elem_of_singleton in Hin. injection Hin as -> -> ->.
    unfold better. destruct best as [b |].
    + destruct (Qgtb _ _) eqn:Hgt.
      * eexists. split; [done |]. simpl. apply Qle_refl.
      * exists b. split; [done |]. apply Qnot_lt_le. intros Hlt.
        apply Qgtb_lt in Hlt. congruence.
    + eexists. split; [done |]. simpl. apply Qle_refl.
Qed.

Lemma attempt_dominates (cfgs : list config) :
  forall st : loop_state world,
    dominates score (bestResult st) (calls st) ->
    dominates score (bestResult (attempt world recognize by_score cfgs st))
              (calls (attempt world recognize by_score cfgs st)).
Proof.
  induction cfgs as [|cfg rest IH]; intros st Hdom; [done |].
  cbn [attempt]. destruct (recognize (ls_world st) cfg) as [r w].
  destruct r as [text0 confidence0 |].
  - destruct (good_enough confidence0 (normalizeText text0)).
    + by apply better_dominates.
    + apply IH. by apply better_dominates.
  - apply IH. cbn [bestResult calls].
    intros cfg' t c Hin.
    apply elem_of_app in Hin as [Hin | Hin]; [exact (Hdom _ _ _ Hin) |].
    by apply list_elem_of_singleton in Hin.
Qed.

(** X13. When the scores are compared by [>] on a score of the confidence
    and the length of the normalised text, the result [processImage]
    returns scores at least as high as every successful call it made. *)
Theorem processImage_returns_best_score (w : world) (b : ocr_result) :
  fst (processImage world recognize by_score w) = Ok b ->
  forall cfg text0 confidence0,
    (cfg, Recognized text0 confidence0) ∈
      snd (processImage world recognize by_score w) ->
    (score confidence0 (length (normalizeText text0)) <=
     score (ocr_confidence b) (length (text b)))%Q.
Proof.
  unfold processImage, processImage_with, finish. cbn [fst snd].
  intros Hres cfg text0 confidence0 Hin.
  assert (Hdom : dominates score
                   (bestResult (attempt world recognize by_score ocrConfigs
                                  (LoopState w None [])))
                   (calls (attempt world recognize by_score ocrConfigs
                             (LoopState w None [])))).
  { apply attempt_dominates. intros ? ? ? H. by apply elem_of_nil in H. }
  destruct (Hdom _ _ _ Hin) as (b' & Hb' & Hle).
  rewrite Hb' in Hres. by injection Hres as <-.
Qed.

End ProcessImageChoice.

(** A recogniser that fails on the first configuration and then reads a
    short text with rising confidence. *)
Lemma processImage_returns_best_score_witness :
  (sample_quality 80 (length (normalizeText (js "OLD TOM"))) <=
   sample_quality (ocr_confidence (OcrResult (js "OLD TOM") 82))
                  (length (text (OcrResult (js "OLD TOM") 82))))%Q.
Proof.
  apply (processImage_returns_best_score nat rising_recognizer sample_quality 0
           (OcrResult (js "OLD TOM") 82) eq_refl
           (Config "Auto Detection" 3 1 "1") (js "OLD TOM") 80%Q).
  vm_compute. right. left.
Defined.

(** ** Shape of a normalised text *)

Lemma spaced_app_r (pre s : jsstring) : spaced (pre ++ s) -> spaced s.
Proof. induction pre as [|c pre IH]; [done |]. intros [_ H]. by apply IH. Qed.

Lemma line_terminator_is_space (c : ascii) :
  is_line_terminator c = true -> is_space c = true.
Proof. destruct c as [[] [] [] [] [] [] [] []]; done. Qed.

(** After the repeat rule a code unit that is not a line terminator never
    stands four times in a row. *)
Lemma collapse_repeats_no_run (s : jsstring) :
  forall pre c post,
    collapse_repeats s = pre ++ c :: c :: c :: c :: post ->
    is_line_terminator c = true.
Proof.
  induction s as [s IH] using length_ind. intros pre c post Heq.
  destruct s as [|c0 s]; [by destruct pre |].
  rewrite collapse_repeats_cons in Heq.
  destruct (negb (is_line_terminator c0) && (3 <=? span (char_eqb c0) s)) eqn:E.
  - assert (Hrun : span (char_eqb c0)
                     (collapse_repeats (drop_while (char_eqb c0) s)) = 0).
    { by rewrite collapse_repeats_run, span_drop_while, andb_false_r. }
    destruct pre as [|x [|y pre]]; simpl in Heq.
    + injection Heq as -> _ Heq. rewrite Heq, span_same in Hrun. lia.
    + injection Heq as -> -> Heq. rewrite Heq, span_same in Hrun. lia.
    + injection Heq as _ _ Heq. eapply IH; [| exact Heq].
      simpl. pose proof (drop_while_length (char_eqb c0) s). lia.
  - destruct pre as [|x pre]; simpl in Heq.
    + injection Heq as -> Heq.
      pose proof (collapse_repeats_run c s) as Hr.
      rewrite Heq, !span_same in Hr.
      destruct (is_line_terminator c); [done |]. cbn [negb andb] in E, Hr.
      apply Nat.leb_gt in E.
      destruct (Nat.leb_spec 4 (span (char_eqb c) s)); lia.
    + injection Heq as _ Heq. eapply IH; [| exact Heq]. simpl. lia.
Qed.

(** X14. In a normalised text the only whitespace is the space, a space
    never stands first, last or next to another space, and no code unit
    stands four times in a row. *)
Theorem normalizeText_shape (x : jsstring) :
  (forall c, In c (normalizeText x) -> is_space c = true -> c = " "%char) /\
  (forall pre c d post,
      normalizeText x = pre ++ c :: d :: post ->
      is_space c = true -> is_space d = false) /\
  (forall c rest, normalizeText x = c :: rest -> is_space c = false) /\
  (forall pre c, normalizeText x = pre ++ [c] -> is_space c = false) /\
  (forall pre c post, normalizeText x <> pre ++ c :: c :: c :: c :: post).
Proof.
  pose proof (normalizeText_tidy x) as [Hlead Hsp].
  assert (Hin : forall c, In c (normalizeText x) -> is_space c = true ->
                          c = " "%char).
  { intros c Hc Hs. apply in_split in Hc as (pre & post & Heq).
    rewrite Heq in Hsp. apply spaced_app_r in Hsp as [Hc _].
    by destruct (Hc Hs). }
  split; [exact Hin |]. split; [| split; [| split]].
  - intros pre c d post Heq Hc. rewrite Heq in Hsp.
    apply spaced_app_r in Hsp as [Hsp _].
    by destruct (Hsp Hc) as (_ & _ & Hd).
  - intros c rest Heq. by rewrite Heq in Hlead.
  - intros pre c Heq. rewrite Heq in Hsp.
    apply spaced_app_r in Hsp as [Hsp _].
    destruct (is_space c); [| done]. by destruct (Hsp eq_refl) as (_ & ? & _).
  - intros pre c post Heq.
    assert (Hlt : is_line_terminator c = true).
    { destruct x as [|c0 x]; [by destruct pre |].
      unfold normalizeText in Heq. by apply collapse_repeats_no_run in Heq. }
    assert (Hc : c = " "%char).
    { apply Hin; [| by apply line_terminator_is_space].
      rewrite Heq. apply in_app_iff. right. by left. }
    by subst c.
Qed.

(** ** Blank text *)

Lemma try_down_zero {A : Type} (k : nat -> option A) (lo : nat) :
  0 < lo -> try_down k lo 0 = None.
Proof. intros H. by apply try_down_below. Qed.

Lemma at_most_zero (hi : option nat) : at_most hi 0 = 0.
Proof. destruct hi; simpl; lia. Qed.

Lemma span_head_false (p : ascii -> bool) (s : jsstring) :
  match s with [] => True | c :: _ => p c = false end -> span p s = 0.
Proof. destruct s as [|c s]; [done |]. simpl. by intros ->. Qed.

(** A pattern whose first atom needs a code unit of a set does not match
    where the text ends or goes on with a code unit outside the set. *)
Lemma match_here_first_fails (ic : bool) (first : atom) (rest : list atom)
    (cs : cset) (lo : nat) (hi : option nat) (caps : list jsstring) (s : jsstring) :
  first = Rep cs lo hi \/ first = Cap cs lo hi ->
  0 < lo ->
  match s with [] => True | c :: _ => cset_matches ic cs c = false end ->
  match_here ic (first :: rest) caps s = None.
Proof.
  intros [-> | ->] Hlo Hs; cbn [match_here];
    by rewrite span_head_false, at_most_zero, try_down_zero.
Qed.

Lemma replace_first_fails (re : regex) (tmpl : list piece) (first : atom)
    (rest : list atom) (cs : cset) (lo : nat) (hi : option nat) (s : jsstring) :
  atoms re = first :: rest ->
  first = Rep cs lo hi \/ first = Cap cs lo hi ->
  0 < lo ->
  Forall (fun c => cset_matches (icase re) cs c = false) s ->
  replace re tmpl s = s.
Proof.
  intros Hat Hfirst Hlo. unfold replace.
  induction 1 as [|c s Hc _ IH]; cbn [replace_from]; rewrite Hat.
  - by rewrite (match_here_first_fails _ _ _ cs lo hi).
  - rewrite (match_here_first_fails _ _ _ cs lo hi) by done. by rewrite IH.
Qed.

Lemma space_not_letter_or_digit (c : ascii) :
  is_space c = true ->
  cset_matches true AZ c = false /\
  cset_matches true Digit c = false /\
  Forall (fun l => cset_matches true (Chr l) c = false) (js "pwvtbcm") /\
  Forall (fun l => cset_matches true (any_of l) c = false) ["b8"; "o0"]%string.
Proof.
  destruct c as [[] [] [] [] [] [] [] []]; try discriminate; intros _;
    vm_compute; repeat constructor.
Qed.

Ltac blank_step Hs :=
  match goal with
  | |- context [replace ?re ?tmpl (?c :: ?s)] =>
      rewrite (replace_first_fails re tmpl _ _ _ 1 _ (c :: s) eq_refl
                 (or_introl eq_refl) Nat.lt_0_1)
        || rewrite (replace_first_fails re tmpl _ _ _ 1 _ (c :: s) eq_refl
                      (or_intror eq_refl) Nat.lt_0_1)
  end;
  [| eapply Forall_impl; [exact Hs |];
     let c := fresh "c" in let Hc := fresh "Hc" in
     intros c Hc; cbn [icase];
     destruct (space_not_letter_or_digit c Hc) as (? & ? & Hl & Ho);
     repeat (first [ assumption
                   | apply Forall_inv in Hl; assumption
                   | apply Forall_inv in Ho; assumption
                   | apply Forall_inv_tail in Hl
                   | apply Forall_inv_tail in Ho ]) ].

Lemma drop_while_all (p : ascii -> bool) (s : jsstring) :
  Forall (fun c => p c = true) s -> drop_while p s = [].
Proof. induction 1 as [|c s Hc _ IH]; simpl; [done |]. by rewrite Hc. Qed.

Lemma normalizeText_blank (s : jsstring) :
  Forall (fun c => is_space c = true) s -> normalizeText s = [].
Proof.
  intros Hs. destruct s as [|c s]; [done |].
  unfold normalizeText, fix_ml, fix_oz.
  do 16 blank_step Hs.
  unfold collapse_whitespace. rewrite replace_spaces_cons.
  rewrite (Forall_inv Hs).
  rewrite (drop_while_all is_space s) by by apply Forall_inv_tail in Hs.
  reflexivity.
Qed.

(** X15. A text made of whitespace only normalises to the empty string,
    and [verifyText] on that result throws "No text extracted from
    image" whatever the fields. *)
Theorem blank_text_is_rejected (s : jsstring) (fields : list (jsstring * jsstring)) :
  Forall (fun c => is_space c = true) s ->
  normalizeText s = [] /\
  verifyText (normalizeText s) fields = Throw "No text extracted from image".
Proof. intros Hs. by rewrite normalizeText_blank. Qed.

Lemma blank_text_is_rejected_witness :
  normalizeText [" "; "009"; "010"; " "]%char = [] /\
  verifyText (normalizeText [" "; "009"; "010"; " "]%char)
             [(js "brandName", js "ACME")] =
    Throw "No text extracted from image".
Proof.
  apply blank_text_is_rejected. repeat constructor.
Defined.

(** ** The normaliser never lengthens a text *)

Lemma try_down_inv {A : Type} (k : nat -> option A) (lo : nat) (r : A) :
  forall m, try_down k lo m = Some r -> exists n, lo <= n <= m /\ k n = Some r.
Proof.
  induction m as [|m IH]; cbn [try_down]; intros H.
  - destruct (Nat.ltb_spec 0 lo); [done |].
    destruct (k 0) eqn:E; [| done]. exists 0. split; [lia | congruence].
  - destruct (Nat.ltb_spec (S m) lo); [done |].
    destruct (k (S m)) eqn:E.
    + exists (S m). split; [lia | congruence].
    + destruct (IH H) as (n & Hn & Hk). exists n. split; [lia | done].
Qed.

Lemma at_most_le (hi : option nat) (n : nat) : at_most hi n <= n.
Proof. destruct hi; simpl; lia. Qed.

Lemma advance_inv {A : Type} (n : nat) (r : option (A * nat)) (x : A) (m : nat) :
  advance n r = Some (x, m) -> exists m', r = Some (x, m') /\ m = n + m'.
Proof. destruct r as [[y m'] |]; [| done]. intros [= -> <-]. by exists m'. Qed.

Lemma copies_bound (w : jsstring) :
  forall fuel s, copies fuel w s * length w <= length s.
Proof.
  induction fuel as [|fuel IH]; intros s; cbn [copies]; [lia |].
  destruct (starts_with w s) eqn:E; [| lia].
  apply starts_with_inv in E as [post ->].
  rewrite drop_app_length, length_app. specialize (IH post). lia.
Qed.

(** A match is no longer than the text. *)
Lemma match_here_bound (ic : bool) (pat : list atom) :
  forall caps s caps' n,
    match_here ic pat caps s = Some (caps', n) -> n <= length s.
Proof.
  induction pat as [|[cs lo hi | cs lo hi | k lo hi] pat IH];
    intros caps s caps' n H; cbn [match_here] in H.
  - injection H as _ <-. lia.
  - apply try_down_inv in H as (n0 & Hn0 & H).
    apply advance_inv in H as (m & H & ->). apply IH in H.
    rewrite length_drop in H.
    pose proof (at_most_le hi (span (cset_matches ic cs) s)).
    pose proof (span_le_length (cset_matches ic cs) s). lia.
  - apply try_down_inv in H as (n0 & Hn0 & H).
    apply advance_inv in H as (m & H & ->). apply IH in H.
    rewrite length_drop in H.
    pose proof (at_most_le hi (span (cset_matches ic cs) s)).
    pose proof (span_le_length (cset_matches ic cs) s). lia.
  - destruct (length (nth (k - 1) caps []) =? 0); [by eapply IH |].
    apply try_down_inv in H as (n0 & Hn0 & H).
    apply advance_inv in H as (m & H & ->). apply IH in H.
    rewrite length_drop in H.
    pose proof (at_most_le hi (copies (length s) (nth (k - 1) caps []) s)).
    pose proof (copies_bound (nth (k - 1) caps []) (length s) s). nia.
Qed.

(** Without back-references a match is at least as long as its captures
    and the least widths of its other atoms together. *)
Lemma match_here_weight (ic : bool) (pat : list atom) :
  forall caps s caps' n,
    no_back pat = true ->
    match_here ic pat caps s = Some (caps', n) ->
    exists new,
      caps' = caps ++ new /\
      length new = group_count pat /\
      length (concat new) + min_width pat <= n.
Proof.
  induction pat as [|[cs lo hi | cs lo hi | k lo hi] pat IH];
    intros caps s caps' n Hnb H; cbn [match_here] in H; [| | | done].
  - injection H as <- <-. exists []. by rewrite app_nil_r.
  - apply try_down_inv in H as (n0 & Hn0 & H).
    apply advance_inv in H as (m & H & ->).
    destruct (IH _ _ _ _ Hnb H) as (new & -> & Hlen & Hw).
    exists new. cbn [min_width group_count]. split; [done |]. split; [done | lia].
  - apply try_down_inv in H as (n0 & Hn0 & H).
    apply advance_inv in H as (m & H & ->).
    destruct (IH _ _ _ _ Hnb H) as (new & -> & Hlen & Hw).
    exists (take n0 s :: new). cbn [min_width group_count concat length].
    split; [by rewrite <- app_assoc |]. split; [by rewrite Hlen |].
    rewrite length_app, length_take. lia.
Qed.

(** A replacement that is never longer than what it replaces does not
    lengthen the text. *)
Lemma replace_from_length (re : regex) (tmpl : list piece) :
  (forall t caps n,
      match_here (icase re) (atoms re) [] t = Some (caps, n) ->
      length (expand tmpl caps) <= n) ->
  forall s skip, skip <= length s ->
    length (replace_from re tmpl skip s) + skip <= length s.
Proof.
  intros Hm. induction s as [|c s IH]; intros skip Hskip.
  - simpl in Hskip. assert (skip = 0) as -> by lia. cbn [replace_from].
    destruct (match_here _ _ _ _) as [[caps n] |] eqn:E; [| done].
    pose proof (Hm _ _ _ E). apply match_here_bound in E. simpl in *. lia.
  - cbn [replace_from]. destruct skip as [|k].
    + destruct (match_here _ _ _ _) as [[caps [|n]] |] eqn:E.
      * pose proof (Hm _ _ _ E). rewrite length_app. simpl.
        specialize (IH 0). lia.
      * pose proof (Hm _ _ _ E). apply match_here_bound in E. simpl in E.
        rewrite length_app. specialize (IH n). simpl. lia.
      * simpl. specialize (IH 0). lia.
    + simpl in Hskip. specialize (IH k). simpl. lia.
Qed.

Lemma replace_length (re : regex) (tmpl : list piece) (s : jsstring) :
  (forall t caps n,
      match_here (icase re) (atoms re) [] t = Some (caps, n) ->
      length (expand tmpl caps) <= n) ->
  length (replace re tmpl s) <= length s.
Proof.
  intros Hm. pose proof (replace_from_length re tmpl Hm s 0). unfold replace. lia.
Qed.

Ltac short_replacement :=
  let t := fresh "t" in let caps := fresh "caps" in let n := fresh "n" in
  let H := fresh "H" in let new := fresh "new" in
  let Hl := fresh "Hl" in let Hw := fresh "Hw" in
  intros t caps n H;
  apply match_here_weight in H as (new & -> & Hl & Hw); [| reflexivity];
  cbn in Hl, Hw;
  repeat (destruct new as [| ? new]; try discriminate Hl);
  cbn in Hw |- *; rewrite ?length_app, ?app_nil_r in *; cbn in Hw |- *; lia.

Lemma trim_length (s : jsstring) : length (trim s) <= length s.
Proof.
  unfold trim. rewrite length_reverse.
  pose proof (drop_while_length is_space (reverse (drop_while is_space s))) as H.
  rewrite length_reverse in H. pose proof (drop_while_length is_space s). lia.
Qed.

Lemma collapse_repeats_length (s : jsstring) :
  length (collapse_repeats s) <= length s.
Proof.
  induction s as [s IH] using length_ind.
  destruct s as [|c s]; [done |]. rewrite collapse_repeats_cons.
  destruct (negb (is_line_terminator c) && (3 <=? span (char_eqb c) s)) eqn:E.
  - apply andb_true_iff in E as [_ E]. apply Nat.leb_le in E.
    pose proof (drop_span (char_eqb c) s) as Hd.
    pose proof (span_le_length (char_eqb c) s) as Hs.
    assert (Hlen : length (drop_while (char_eqb c) s) + 3 <= length s).
    { rewrite <- Hd, length_drop. lia. }
    specialize (IH (drop_while (char_eqb c) s)). simpl in *. lia.
  - specialize (IH s). simpl in *. lia.
Qed.

Lemma normalizeText_length (x : jsstring) : length (normalizeText x) <= length x.
Proof.
  destruct x as [|c x]; [done |].
  unfold normalizeText, fix_ml, fix_oz, collapse_whitespace.
  repeat first
    [ eapply Nat.le_trans; [apply collapse_repeats_length |]
    | eapply Nat.le_trans; [apply trim_length |]
    | eapply Nat.le_trans; [apply replace_length; short_replacement |] ].
  lia.
Qed.

(** X16. The normaliser never lengthens a text; hence the loop of
    [processImage] is left early only on a raw text longer than 50. *)
Theorem normalizeText_never_longer (x : jsstring) :
  length (normalizeText x) <= length x /\
  (forall confidence0, good_enough confidence0 (normalizeText x) = true ->
                       50 < length x).
Proof.
  pose proof (normalizeText_length x) as H. split; [done |].
  intros confidence0 Hg. unfold good_enough in Hg.
  apply andb_true_iff in Hg as [_ Hg]. apply Nat.ltb_lt in Hg. lia.
Qed.

(** X17. The normaliser is not idempotent: for some text a second pass
    changes the result of the first.  In "A0B0C" the first pass repairs
    the first zero only, because the match takes the letter after it. *)
Theorem normalizeText_not_idempotent :
  exists x, normalizeText (normalizeText x) <> normalizeText x.
Proof. exists (js "A0B0C"). vm_compute. discriminate. Qed.

(** ** The form validator: patterns as languages *)

Section Languages.

Variable ic : bool.

Lemma lang_seq_iff r1 r2 s :
  lang ic (Seq r1 r2) s <->
  exists s1 s2, s = s1 ++ s2 /\ lang ic r1 s1 /\ lang ic r2 s2.
Proof.
  split.
  - inversion 1; subst. eauto.
  - intros (s1 & s2 & -> & H1 & H2). by constructor.
Qed.

Lemma lang_alt_iff r1 r2 s : lang ic (Alt r1 r2) s <-> lang ic r1 s \/ lang ic r2 s.
Proof.
  split.
  - inversion 1; subst; auto.
  - intros [H | H]; [by apply lang_alt_l | by apply lang_alt_r].
Qed.

Lemma lang_eps_iff s : lang ic Eps s <-> s = [].
Proof. split; [by inversion 1 | intros ->; constructor]. Qed.

Lemma lang_void s : ~ lang ic Void s.
Proof. inversion 1. Qed.

Lemma lang_sym_iff cs s :
  lang ic (Sym cs) s <-> exists c, s = [c] /\ cset_matches ic cs c = true.
Proof.
  split.
  - inversion 1; subst. eauto.
  - intros (c & -> & H). by constructor.
Qed.

Lemma nullable_spec r : nullable r = true <-> lang ic r [].
Proof.
  split.
  - induction r as [| | cs | | r1 IH1 r2 IH2 | r1 IH1 r2 IH2 | r IH]; simpl;
      intros H; try discriminate.
    + constructor.
    + apply andb_true_iff in H as [H1 H2].
      apply (lang_seq ic r1 r2 [] []); auto.
    + apply orb_true_iff in H as [H | H];
        [apply lang_alt_l | apply lang_alt_r]; auto.
    + constructor.
  - induction r as [| | cs | | r1 IH1 r2 IH2 | r1 IH1 r2 IH2 | r IH]; simpl;
      intros H; try done.
    + inversion H.
    + inversion H.
    + inversion H.
    + apply lang_seq_iff in H as (s1 & s2 & Heq & H1 & H2).
      symmetry in Heq. apply app_eq_nil in Heq as [-> ->].
      by rewrite IH1, IH2.
    + apply lang_alt_iff in H as [H | H]; [rewrite IH1 | rewrite IH2];
        auto using orb_true_r.
Qed.

Lemma lang_star_cons_inv r c s :
  lang ic (Star r) (c :: s) ->
  exists s1 s2, s = s1 ++ s2 /\ lang ic r (c :: s1) /\ lang ic (Star r) s2.
Proof.
  intros H. remember (Star r) as sr eqn:Er. remember (c :: s) as cs eqn:Es.
  revert Er Es.
  induction H as [| | | | | | | r' s1 s2 H1 _ H2 IH2]; intros Er Es; try done.
  injection Er as ->. destruct s1 as [|c' s1].
  - by apply IH2.
  - simpl in Es. injection Es as -> <-. by exists s1, s2.
Qed.

Lemma deriv_spec c r : forall s, lang ic (deriv ic c r) s <-> lang ic r (c :: s).
Proof.
  induction r as [| | cs | | r1 IH1 r2 IH2 | r1 IH1 r2 IH2 | r IH];
    intros s; cbn [deriv].
  - split; inversion 1.
  - split; inversion 1.
  - destruct (cset_matches ic cs c) eqn:E.
    + rewrite lang_eps_iff, lang_sym_iff. split.
      * intros ->. by exists c.
      * by intros (c' & [= -> ->] & _).
    + split; [inversion 1 |]. rewrite lang_sym_iff.
      intros (c' & [= -> ->] & H). congruence.
  - rewrite lang_eps_iff. split.
    + intros ->. constructor.
    + by inversion 1.
  - assert (Hseq : lang ic (Seq (deriv ic c r1) r2) s <->
                   exists s1 s2, s = s1 ++ s2 /\
                                 lang ic r1 (c :: s1) /\ lang ic r2 s2).
    { rewrite lang_seq_iff. by setoid_rewrite IH1. }
    rewrite (lang_seq_iff r1 r2 (c :: s)).
    destruct (nullable r1) eqn:En.
    + rewrite lang_alt_iff, Hseq, IH2. split.
      * intros [(s1 & s2 & -> & H1 & H2) | H2].
        -- by exists (c :: s1), s2.
        -- exists [], (c :: s). split; [done |]. split; [| done].
           by apply nullable_spec.
      * intros ([|c' s1] & s2 & Heq & H1 & H2); simpl in Heq.
        -- right. by subst s2.
        -- injection Heq as <- ->. left. by exists s1, s2.
    + rewrite Hseq. split.
      * intros (s1 & s2 & -> & H1 & H2). by exists (c :: s1), s2.
      * intros ([|c' s1] & s2 & Heq & H1 & H2); simpl in Heq.
        -- apply nullable_spec in H1. congruence.
        -- injection Heq as <- ->. by exists s1, s2.
  - rewrite !lang_alt_iff, IH1, IH2. done.
  - rewrite lang_seq_iff. split.
    + intros (s1 & s2 & -> & H1 & H2). apply IH in H1.
      by apply (lang_star_cons ic r (c :: s1) s2).
    + intros H. apply lang_star_cons_inv in H as (s1 & s2 & -> & H1 & H2).
      exists s1, s2. split; [done |]. split; [by apply IH | done].
Qed.

(** The matcher decides the language. *)
Lemma full_match_spec s : forall r, full_match ic r s = true <-> lang ic r s.
Proof.
  induction s as [|c s IH]; intros r; cbn [full_match].
  - apply nullable_spec.
  - by rewrite IH, deriv_spec.
Qed.

Lemma lang_star_any s : lang ic (Star AnyUnit) s.
Proof.
  induction s as [|c s IH]; [constructor |].
  apply (lang_star_cons ic AnyUnit [c] s); [constructor | done].
Qed.

Lemma lang_star_sym cs s :
  lang ic (Star (Sym cs)) s <-> Forall (fun c => cset_matches ic cs c = true) s.
Proof.
  split.
  - intros H. remember (Star (Sym cs)) as sr eqn:Er. revert Er.
    induction H as [| | | | | | | r' s1 s2 H1 _ H2 IH2]; intros Er; try done.
    injection Er as ->. apply lang_sym_iff in H1 as (c & -> & Hc).
    constructor; [done | by apply IH2].
  - induction 1 as [|c s Hc _ IH]; [constructor |].
    apply (lang_star_cons ic (Sym cs) [c] s); [by constructor | done].
Qed.

Lemma lang_plus_sym cs s :
  lang ic (plus (Sym cs)) s <->
  s <> [] /\ Forall (fun c => cset_matches ic cs c = true) s.
Proof.
  unfold plus. rewrite lang_seq_iff. split.
  - intros (s1 & s2 & -> & H1 & H2).
    apply lang_sym_iff in H1 as (c & -> & Hc). apply lang_star_sym in H2.
    split; [done | by constructor].
  - intros [Hne Hall]. destruct Hall as [|c s Hc Hall]; [done |].
    exists [c], s. split; [done |]. split; [by constructor | by apply lang_star_sym].
Qed.

Lemma lang_opt r s : lang ic (opt r) s <-> lang ic r s \/ s = [].
Proof. unfold opt. by rewrite lang_alt_iff, lang_eps_iff. Qed.

Lemma lang_lit_cons c (w : jsstring) s :
  lang ic (fold_right (fun c r => Seq (Sym (Chr c)) r) Eps (c :: w)) s <->
  exists d s', s = d :: s' /\ cset_matches ic (Chr c) d = true /\
               lang ic (fold_right (fun c r => Seq (Sym (Chr c)) r) Eps w) s'.
Proof.
  cbn [fold_right]. rewrite lang_seq_iff. split.
  - intros (s1 & s2 & -> & H1 & H2). apply lang_sym_iff in H1 as (d & -> & Hd).
    by exists d, s2.
  - intros (d & s' & -> & Hd & H). exists [d], s'.
    split; [done |]. split; [by constructor | done].
Qed.

Lemma lang_one_of (ws : list string) s :
  lang ic (one_of ws) s <-> exists w, In w ws /\ lang ic (lit w) s.
Proof.
  induction ws as [|w ws IH]; cbn [one_of fold_right].
  - split; [inversion 1 | by intros (w & [] & _)].
  - fold (one_of ws). rewrite lang_alt_iff, IH. split.
    + intros [H | (w' & Hin & H)]; [exists w | exists w']; simpl; auto.
    + intros (w' & [<- | Hin] & H); [by left | right; eauto].
Qed.

End Languages.

(** ** The form validator: code units *)

Lemma all_units_complete (c : ascii) : In c all_units.
Proof.
  unfold all_units. rewrite <- (ascii_nat_embedding c).
  apply in_map, in_seq. pose proof (nat_ascii_bounded c). lia.
Qed.

Lemma range09_is_digit (c : ascii) :
  cset_matches true (Range "0" "9") c = is_digit c.
Proof.
  assert (H : forallb (fun c => Bool.eqb (cset_matches true (Range "0" "9") c)
                                         (is_digit c)) all_units = true)
    by (vm_compute; reflexivity).
  rewrite forallb_forall in H. apply Bool.eqb_prop, H, all_units_complete.
Qed.

(** Under the [i] flag a pattern character matches the code units with
    the same lower case. *)
Lemma chr_matches_lower (l c : ascii) :
  cset_matches true (Chr l) c = char_eqb (lower_char l) (lower_char c).
Proof.
  assert (H : forallb (fun l =>
                forallb (fun c => Bool.eqb (cset_matches true (Chr l) c)
                                   (char_eqb (lower_char l) (lower_char c)))
                        all_units) all_units = true)
    by (vm_compute; reflexivity).
  rewrite forallb_forall in H. specialize (H l (all_units_complete l)).
  rewrite forallb_forall in H. apply Bool.eqb_prop, H, all_units_complete.
Qed.

Lemma toLowerCase_cons (c : ascii) (s : jsstring) :
  toLowerCase (c :: s) = lower_char c :: toLowerCase s.
Proof. done. Qed.

Lemma lang_lit_lower (w : string) (s : jsstring) :
  lang true (lit w) s <-> toLowerCase s = toLowerCase (js w).
Proof.
  unfold lit. revert s. induction (js w) as [|l ls IH]; intros s.
  - cbn [fold_right]. rewrite lang_eps_iff. split; [by intros -> |].
    apply toLowerCase_nil_inv.
  - rewrite lang_lit_cons. split.
    + intros (d & s' & -> & Hd & H). apply IH in H.
      rewrite chr_matches_lower in Hd. apply char_eqb_eq in Hd.
      by rewrite !toLowerCase_cons, H, Hd.
    + destruct s as [|d s']; [done |]. rewrite !toLowerCase_cons.
      intros [= Hd Hs].
      exists d, s'. split; [done |]. split; [| by apply IH].
      rewrite chr_matches_lower. by apply char_eqb_eq.
Qed.

Lemma lower_symbol (c l : ascii) :
  l = "."%char \/ l = "%"%char -> lower_char c = l -> c = l.
Proof.
  intros Hl <-. destruct c as [[] [] [] [] [] [] [] []]; try reflexivity;
    destruct Hl as [Hl | Hl]; vm_compute in Hl; discriminate.
Qed.

Lemma chr_symbol (l c : ascii) :
  l = "."%char \/ l = "%"%char ->
  cset_matches true (Chr l) c = true <-> c = l.
Proof.
  intros Hl. rewrite chr_matches_lower, char_eqb_eq. split.
  - intros H. apply lower_symbol; [done |].
    rewrite <- H. by destruct Hl as [-> | ->].
  - intros ->. by destruct Hl as [-> | ->].
Qed.

(** ** The form validator: blank values *)







(** ** The form validator: the two rules *)

Lemma test_anchored (p : pattern) (t : jsstring) :
  from_start p = true -> to_end p = true ->
  (test p t = true <-> lang (ignore_case p) (body p) t).
Proof.
  intros Hs He. unfold test. rewrite Hs, He, full_match_spec.
  rewrite lang_seq_iff. split.
  - intros (s1 & s2 & -> & H1 & H2). apply lang_eps_iff in H1 as ->.
    apply lang_seq_iff in H2 as (s3 & s4 & -> & H3 & H4).
    apply lang_eps_iff in H4 as ->. by rewrite app_nil_r.
  - intros H. exists [], t. split; [done |]. split; [constructor |].
    rewrite <- (app_nil_r t). constructor; [done | constructor].
Qed.

Lemma test_unanchored (p : pattern) (t : jsstring) :
  from_start p = false -> to_end p = false ->
  (test p t = true <->
   exists a m b, t = a ++ m ++ b /\ lang (ignore_case p) (body p) m).
Proof.
  intros Hs He. unfold test. rewrite Hs, He, full_match_spec.
  rewrite lang_seq_iff. split.
  - intros (a & s2 & -> & _ & H2).
    apply lang_seq_iff in H2 as (m & b & -> & Hm & _). by exists a, m, b.
  - intros (a & m & b & -> & Hm). exists a, (m ++ b).
    split; [done |]. split; [apply lang_star_any |].
    constructor; [done | apply lang_star_any].
Qed.

Lemma lang_digits (s : jsstring) :
  lang true (plus digit09) s <->
  s <> [] /\ Forall (fun c => is_digit c = true) s.
Proof.
  unfold digit09. rewrite lang_plus_sym.
  split; intros [Hne H]; (split; [done |]);
    (eapply Forall_impl; [exact H |]); intros c Hc; cbv beta in Hc |- *.
  - by rewrite <- range09_is_digit.
  - by rewrite range09_is_digit.
Qed.

Lemma lang_spaces (s : jsstring) :
  lang true (Star (Sym Space)) s <-> Forall (fun c => is_space c = true) s.
Proof. apply lang_star_sym. Qed.

Lemma lang_same_line (s : jsstring) :
  lang true (Star (Sym Dot)) s <->
  Forall (fun c => is_line_terminator c = false) s.
Proof.
  rewrite lang_star_sym.
  split; intros H; (eapply Forall_impl; [exact H |]); intros c;
    cbn [cset_matches]; by rewrite negb_true_iff.
Qed.

Lemma digit_same_line (c : ascii) :
  is_digit c = true -> is_line_terminator c = false.
Proof. destruct c as [[] [] [] [] [] [] [] []]; done. Qed.

Lemma validateField_ruled (i : string) (v : jsstring) (req : bool) (r : rule) :
  validationRules !! i = Some r ->
  validateField (Input i v req) = true <->
  trim v <> [] /\ test (rule_pattern r) (trim v) = true.
Proof.
  intros Hr. unfold validateField. cbn [id value]. rewrite Hr.
  destruct (trim v) as [|c t]; [by split; [| intros []] |].
  destruct (test _ _); by split; [| intros []].
Qed.

(** X19. A value of alcoholContent is valid exactly when, trimmed, it is
    a number (digits, optionally a point and digits), optional
    whitespace, and optionally "%" or "proof" in any letter case. *)
Theorem validateField_alcoholContent (v : jsstring) (req : bool) :
  validateField (Input "alcoholContent" v req) = true <->
  exists whole frac gap unit0,
    trim v = whole ++ frac ++ gap ++ unit0 /\
    whole <> [] /\ Forall (fun c => is_digit c = true) whole /\
    (frac = [] \/
     exists g, frac = "."%char :: g /\ g <> [] /\
               Forall (fun c => is_digit c = true) g) /\
    Forall (fun c => is_space c = true) gap /\
    (unit0 = [] \/ unit0 = js "%" \/ toLowerCase unit0 = js "proof").
Proof.
  rewrite (validateField_ruled _ _ _
             (Rule alcoholContent_pattern
                "Enter a valid number with optional % or proof (e.g., 40%, 80 proof, or 45)"))
    by done.
  cbn [rule_pattern]. rewrite test_anchored by done.
  cbn [alcoholContent_pattern body ignore_case]. split.
  - intros [_ H].
    apply lang_seq_iff in H as (whole & s2 & Ht & Hw & H).
    apply lang_seq_iff in H as (frac & s3 & -> & Hf & H).
    apply lang_seq_iff in H as (gap & unit0 & -> & Hg & Hu).
    apply lang_digits in Hw as [Hw1 Hw2]. apply lang_spaces in Hg.
    exists whole, frac, gap, unit0. split; [done |].
    split; [done |]. split; [done |]. split; [| split; [done |]].
    + apply lang_opt in Hf as [Hf | ->]; [right | by left].
      apply lang_seq_iff in Hf as (p & g & -> & Hp & Hgd).
      apply lang_sym_iff in Hp as (c & -> & Hc).
      apply chr_symbol in Hc as ->; [| by left].
      apply lang_digits in Hgd as [? ?]. by exists g.
    + apply lang_opt in Hu as [Hu | ->]; [| by left]. right.
      apply lang_alt_iff in Hu as [Hu | Hu].
      * left. apply lang_sym_iff in Hu as (c & -> & Hc).
        by apply chr_symbol in Hc as ->; [| right].
      * right. by apply lang_lit_lower in Hu.
  - intros (whole & frac & gap & unit0 & Ht & Hw1 & Hw2 & Hf & Hg & Hu).
    split; [rewrite Ht; by destruct whole |].
    rewrite Ht. constructor; [by apply lang_digits |].
    constructor; [| constructor; [by apply lang_spaces |]].
    + apply lang_opt. destruct Hf as [-> | (g & -> & Hg1 & Hg2)]; [by right | left].
      apply (lang_seq true _ _ ["."%char] g); [by constructor |].
      by apply lang_digits.
    + apply lang_opt. destruct Hu as [-> | [-> | Hu]]; [by right | left | left].
      * apply lang_alt_l. by constructor.
      * apply lang_alt_r. by apply lang_lit_lower.
Qed.

(** X20. A value of netContents is valid exactly when, trimmed, it holds
    a digit followed on the same line, at any distance, by one of the
    units of volume in any letter case; whatever stands before and after
    is accepted. *)
Theorem validateField_netContents (v : jsstring) (req : bool) :
  validateField (Input "netContents" v req) = true <->
  exists before d between unit0 after,
    trim v = before ++ d :: between ++ unit0 ++ after /\
    is_digit d = true /\
    Forall (fun c => is_line_terminator c = false) between /\
    exists u, In u volume_units /\ toLowerCase unit0 = toLowerCase (js u).
Proof.
  rewrite (validateField_ruled _ _ _
             (Rule netContents_pattern "Enter a valid volume (e.g., 750 mL, 25.4 oz)"))
    by done.
  cbn [rule_pattern]. rewrite test_unanchored by done.
  cbn [netContents_pattern body ignore_case]. split.
  - intros [_ (a & m & b & Ht & H)].
    apply lang_seq_iff in H as (ds & s2 & -> & Hd & H).
    apply lang_seq_iff in H as (mid & unit0 & -> & Hmid & Hu).
    apply lang_digits in Hd as [Hd1 Hd2]. apply lang_same_line in Hmid.
    apply lang_one_of in Hu as (u & Hin & Hu). apply lang_lit_lower in Hu.
    destruct ds as [|d ds]; [done |].
    exists a, d, (ds ++ mid), unit0, b.
    split; [rewrite Ht; simpl; by rewrite <- !app_assoc |].
    split; [by apply Forall_inv in Hd2 |]. split; [| by exists u].
    apply Forall_app. split; [| done].
    apply Forall_inv_tail in Hd2.
    eapply Forall_impl; [exact Hd2 |]. apply digit_same_line.
  - intros (before & d & between & unit0 & after & Ht & Hd & Hb & u & Hin & Hu).
    split; [rewrite Ht; by destruct before |].
    exists before, (d :: between ++ unit0), after.
    split; [rewrite Ht; simpl; by rewrite <- !app_assoc |].
    apply (lang_seq true _ _ [d] (between ++ unit0)).
    + apply lang_digits. split; [done |]. by constructor.
    + constructor; [by apply lang_same_line |].
      apply lang_one_of. exists u. split; [done |]. by apply lang_lit_lower.
Qed.

(** ** From the form to the results *)

Lemma validateAllFields_fold (l : list input_element) (b : bool) :
  fold_left (fun isValid field0 =>
               if negb (validateField field0) then false else isValid) l b =
  b && forallb validateField l.
Proof.
  revert b. induction l as [|e l IH]; intros b; simpl.
  - by rewrite andb_true_r.
  - rewrite IH. destruct (validateField e), b; simpl; try done.
Qed.

Lemma validateAllFields_spec (doc : document) :
  validateAllFields doc = true <->
  forall e, In e doc -> required e = true -> validateField e = true.
Proof.
  unfold validateAllFields, required_inputs.
  rewrite validateAllFields_fold, andb_true_l, forallb_forall. split.
  - intros H e Hin Hreq. apply H, list_elem_of_In, list_elem_of_filter.
    split; [done | by apply list_elem_of_In].
  - intros H e Hin. apply list_elem_of_In, list_elem_of_filter in Hin as [Hreq Hin].
    apply H; [by apply list_elem_of_In | done].
Qed.

Lemma validateField_not_empty (e : input_element) :
  validateField e = true -> value e <> [].
Proof.
  unfold validateField. intros H Hv. rewrite Hv in H. done.
Qed.

(** X21. When [validateAllFields] accepts a form whose six inputs are
    required, [getFormData] followed by [verifyText] on a non-empty text
    gives six results, one per field with its value, in the order
    brandName, productClass, alcoholContent, netContents,
    manufacturerName, manufacturerAddress. *)
Theorem validated_form_gives_six_results (doc : document) (extractedText : jsstring) :
  extractedText <> [] ->
  validateAllFields doc = true ->
  (forall i, In i form_ids ->
     exists e, find (fun e => String.eqb (id e) i) doc = Some e /\
               required e = true) ->
  exists results,
    verifyText extractedText (getFormData doc) = Ok results /\
    map (fun r => (field r, input r)) results = getFormData doc /\
    map field results = map js form_ids.
Proof.
  intros Hne Hvalid Hreq.
  assert (Hval : forall i, In i form_ids -> value_of doc i <> []).
  { intros i Hi. destruct (Hreq i Hi) as (e & Hfind & He).
    unfold value_of. rewrite Hfind. apply validateField_not_empty.
    apply (proj1 (validateAllFields_spec doc) Hvalid); [| done].
    by apply find_some in Hfind as [? _]. }
  assert (Hfilter : filter (fun e : jsstring * jsstring => snd e <> [])
                      (getFormData doc) = getFormData doc).
  { unfold getFormData.
    rewrite !filter_cons_True, filter_nil;
      [done | simpl; apply Hval; unfold form_ids; simpl; tauto ..]. }
  eexists. split; [by apply verifyText_entries |]. rewrite Hfilter.
  split; [| done].
  unfold getFormData. done.
Qed.

Lemma validated_form_gives_six_results_witness :
  exists results,
    verifyText (js "ABC STRAIGHT RYE WHISKY 45% 750 ML")
               (getFormData sample_form) = Ok results /\
    map (fun r => (field r, input r)) results = getFormData sample_form /\
    map field results = map js form_ids.
Proof.
  apply validated_form_gives_six_results.
  - discriminate.
  - vm_compute. reflexivity.
  - intros i Hi. unfold form_ids in Hi. simpl in Hi.
    destruct Hi as [<- | [<- | [<- | [<- | [<- | [<- | []]]]]]];
      (eexists; split; [vm_compute; reflexivity | reflexivity]).
Defined.
